(** * A shallow embedding of [regex.py]: NFA construction and matching

    The Python program builds a graph of mutable [State] objects and then
    walks it.  The embedding keeps the program's shape:

    - the objects live in an arena ([heap]), the list of all [State]
      objects in order of creation; a Python reference is an index into
      it, so the cyclic graph and the sharing of nodes between fragments
      are kept;
    - the class variable [State.id_count] and the arena are interpreter
      state, which survives from one call to the next;
    - Python exceptions are results of a small state-and-exception monad;
    - the recursion of [Split.match] is bounded by the interpreter's
      recursion limit, an explicit parameter. *)

From Stdlib Require Import ZArith List String Ascii Bool Lia DecimalString.
From stdpp Require Import base option list.

Open Scope string_scope.
Open Scope Z_scope.
Open Scope nat_scope.
Open Scope list_scope.

(** ** Exceptions and results *)

(** The exceptions the program can raise.  [SyntaxError] carries the index
    that line 148 prints.  [IndexError] is an access to [l[-1]], [l[0]] or
    [l.pop()] on an empty list, [AttributeError] a method or attribute
    access on [None], [RuntimeError] Python 2's "maximum recursion depth
    exceeded".  [DanglingRef] is no Python exception: it marks a reference
    to no object, which an arena made by [build_nfa] never holds
    ([build_nfa_closed]) and [match_pattern] never meets
    ([run_match_never_dangles]). *)
Inductive exn : Type :=
| SyntaxError (near : nat)
| IndexError
| AttributeError
| RuntimeError
| DanglingRef.

Inductive result (A : Type) : Type :=
| Ok (a : A)
| Raise (e : exn).
Arguments Ok {A} a.
Arguments Raise {A} e.

(** ** Objects *)

(** A reference to a [State] object: its index in the arena. *)
Abbreviation ref := nat (only parsing).

(** The class of a [State] object.  [Char] carries its two attributes:
    [match_any], and [match_char], which the constructor leaves unset
    ([None]) for the wildcard. *)
Inductive class : Type :=
| Char (match_any : bool) (match_char : option ascii)
| Split
| Start
| End.

Record State : Type := mkState {
  cls : class;
  state_id : Z;
  next_states : list ref
}.

(** The interpreter state: the class variable [State.id_count] and the
    arena of the objects created so far. *)
Record Interp : Type := mkInterp {
  id_count : Z;
  heap : list State
}.

(** ** The monad *)

Definition M (A : Type) : Type := Interp -> result A * Interp.

Definition ret {A} (a : A) : M A := fun s => (Ok a, s).

Definition raise {A} (e : exn) : M A := fun s => (Raise e, s).

Definition bind {A B} (m : M A) (k : A -> M B) : M B :=
  fun s =>
    match m s with
    | (Ok a, s') => k a s'
    | (Raise e, s') => (Raise e, s')
    end.

Notation "'let*' p := m 'in' k" := (bind m (fun p => k))
  (at level 10, p pattern, m at level 100, k at level 200).

Definition get_id_count : M Z := fun s => (Ok (id_count s), s).

Definition set_id_count (c : Z) : M unit :=
  fun s => (Ok tt, mkInterp c (heap s)).

Definition get_heap : M (list State) := fun s => (Ok (heap s), s).

(** Creating an object: it goes to the end of the arena and its index is
    the reference. *)
Definition alloc (st : State) : M ref :=
  fun s => (Ok (length (heap s)), mkInterp (id_count s) (heap s ++ [st])).

Definition lift {A} (o : option A) (e : exn) : M A :=
  match o with
  | Some a => ret a
  | None => raise e
  end.

(** ** Python lists, in source order (the last element is [l[-1]]) *)

Definition py_pop {A} (l : list A) : option (A * list A) :=
  match rev l with
  | [] => None
  | x :: r => Some (x, rev r)
  end.

Definition py_last {A} (l : list A) : option A := fst <$> py_pop l.

Definition py_set_last {A} (l : list A) (x : A) : option (list A) :=
  (fun p => snd p ++ [x]) <$> py_pop l.

(** [s[k]] for a string, with Python's negative indices. *)
Definition py_str_index (s : string) (k : Z) : option ascii :=
  let n := Z.of_nat (String.length s) in
  let k' := if (k <? 0)%Z then (k + n)%Z else k in
  if (k' <? 0)%Z then None else String.get (Z.to_nat k') s.

(** ** class State and its subclasses (lines 6-96) *)

(** [State.__init__(self, state_id=None)]: with no identity given the
    object takes [State.id_count] and increments it. *)
Definition State_init (c : class) (sid : option Z) : M ref :=
  match sid with
  | Some i => alloc (mkState c i [])
  | None =>
      let* i := get_id_count in
      let* self := alloc (mkState c i []) in
      let* _ := set_id_count (i + 1) in
      ret self
  end.

(** [State.add_next_state]: [self.next_states.append(next_state)]. *)
Definition add_next_state (self next_state : ref) : M unit :=
  fun s =>
    (Ok tt,
     mkInterp (id_count s)
       (alter (fun st => mkState (cls st) (state_id st)
                           (next_states st ++ [next_state]))
              self (heap s))).

(** [Char.__init__(self, char)]. *)
Definition Char_init (char : ascii) : M ref :=
  if Ascii.eqb char "." then State_init (Char true None) None
  else State_init (Char false (Some char)) None.

Definition Split_init : M ref := State_init Split None.

(** [Start.__init__]; nothing in the program calls it (lines 140-141, which
    did, are commented out). *)
Definition Start_init : M ref := State_init Start (Some 0%Z).

Definition End_init : M ref := State_init End (Some (-1)%Z).

(** [type(state) is End]. *)
Definition type_is_End (h : list State) (state : ref) : bool :=
  match h !! state with
  | Some st => match cls st with End => true | _ => false end
  | None => false
  end.

(** The loop of [Split.match] (lines 63-69); [rec] is the dynamic dispatch
    [state.match(char)]. *)
Fixpoint Split_match_loop (rec : ref -> result (list ref)) (h : list State)
    (states : list ref) (matches : list ref) : result (list ref) :=
  match states with
  | [] => Ok matches
  | state :: rest =>
      if type_is_End h state then
        Split_match_loop rec h rest (matches ++ [state])
      else
        match rec state with
        | Ok r => Split_match_loop rec h rest (matches ++ r)
        | Raise e => Raise e
        end
  end.

(** [self.match(char)], dispatched on the class of [self].  [depth] is the
    number of Python frames still available: every call takes one, and a
    call with none left raises [RuntimeError].  [Start] inherits
    [Split.match]. *)
Fixpoint State_match (depth : nat) (h : list State) (self : ref)
    (char : ascii) : result (list ref) :=
  match depth with
  | O => Raise RuntimeError
  | S depth' =>
      match h !! self with
      | None => Raise DanglingRef
      | Some st =>
          match cls st with
          | Char match_any match_char =>
              if match_any then Ok (next_states st)
              else match match_char with
                   | None => Raise AttributeError
                   | Some c =>
                       if Ascii.eqb c char then Ok (next_states st)
                       else Ok []
                   end
          | Split | Start =>
              Split_match_loop (fun state => State_match depth' h state char)
                h (next_states st) []
          | End => Ok []
          end
      end
  end.

(** ** class NFA (lines 99-134) *)

(** An [NFA] object.  In this program its two attributes always hold
    [State] references: the constructor is called either as
    [NFA(start, end)] with both given or as [NFA(other_nfa=l)] with [l]
    not empty, which creates both.  No [NFA] object is ever reachable from
    two places at once (every use pops it, changes it and stores it back),
    so the objects are values here and a method that assigns an attribute
    returns the changed object. *)
Record NFA : Type := mkNFA {
  start_state : ref;
  end_state : ref
}.

(** [x.attr] where [x] may be [None]. *)
Definition attr (x : option NFA) : M NFA := lift x AttributeError.

(** [NFA.connect(self, next_nfa)]. *)
Definition connect (self : NFA) (next_nfa : option NFA) : M NFA :=
  let* next := attr next_nfa in
  let* _ := add_next_state (end_state self) (start_state next) in
  ret (mkNFA (start_state self) (end_state next)).

(** [NFA.loop(self)]. *)
Definition loop (self : NFA) : M unit :=
  add_next_state (end_state self) (start_state self).

(** [NFA.bypass(self)]. *)
Definition bypass (self : NFA) : M unit :=
  add_next_state (start_state self) (end_state self).

(** [NFA.wrap(self, other_nfa)]. *)
Definition wrap (self : NFA) (other_nfa : option NFA) : M unit :=
  let* other := attr other_nfa in
  let* _ := add_next_state (start_state self) (start_state other) in
  add_next_state (end_state other) (end_state self).

Fixpoint wrap_all (self : NFA) (other_nfa : list (option NFA)) : M unit :=
  match other_nfa with
  | [] => ret tt
  | nfa :: rest => let* _ := wrap self nfa in wrap_all self rest
  end.

(** [NFA(start, end)]: [other_nfa] is [None], nothing else happens. *)
Definition NFA_init (start end_ : ref) : NFA := mkNFA start end_.

(** [NFA(other_nfa=l)] for a non-empty [l]: two new [Split]s, then every
    element wrapped between them. *)
Definition NFA_init_other (other_nfa : list (option NFA)) : M NFA :=
  let* s := Split_init in
  let* e := Split_init in
  let self := mkNFA s e in
  let* _ := wrap_all self other_nfa in
  ret self.

(** ** build_nfa (lines 137-220) *)

(** The two local lists of [build_nfa].  Both hold [None] where the source
    does: [curr_nfa] starts as [[None]], and closing an empty group appends
    the [None] popped from [curr_nfa] to an operand list. *)
Abbreviation frames := (list (list (option NFA))) (only parsing).
Abbreviation accumulators := (list (option NFA)) (only parsing).

(** [l[-1]], [l.pop()], [l[-1] = x] and [l[0]], raising [IndexError]. *)
Definition index_last {A} (l : list A) : M A := lift (py_last l) IndexError.
Definition pop {A} (l : list A) : M (A * list A) := lift (py_pop l) IndexError.
Definition assign_last {A} (l : list A) (x : A) : M (list A) :=
  lift (py_set_last l x) IndexError.
Definition index_first {A} (l : list A) : M A := lift (head l) IndexError.

(** [finalize_nfa_stack(nfa_stack, curr_nfa)] (lines 208-220).  The two
    lists are changed in place by the source; here the changed lists are
    returned. *)
Definition finalize_nfa_stack (nfa_stack : frames) (curr_nfa : accumulators)
    : M (frames * accumulators) :=
  let* top := index_last nfa_stack in
  if 1 <? length top then
    let* wrap := NFA_init_other top in
    let* cur := index_last curr_nfa in
    match cur with
    | Some self =>
        let* self' := connect self (Some wrap) in
        let* curr_nfa' := assign_last curr_nfa (Some self') in
        ret (nfa_stack, curr_nfa')
    | None =>
        let* curr_nfa' := assign_last curr_nfa (Some wrap) in
        ret (nfa_stack, curr_nfa')
    end
  else if length top =? 1 then
    let* cur := index_last curr_nfa in
    match cur with
    | Some self =>
        let* (x, top') := pop top in
        let* nfa_stack' := assign_last nfa_stack top' in
        let* self' := connect self x in
        let* curr_nfa' := assign_last curr_nfa (Some self') in
        ret (nfa_stack', curr_nfa')
    | None =>
        let* (x, top') := pop top in
        let* nfa_stack' := assign_last nfa_stack top' in
        let* curr_nfa' := assign_last curr_nfa x in
        ret (nfa_stack', curr_nfa')
    end
  else ret (nfa_stack, curr_nfa).

(** [nfa_stack[-1].append(x)]. *)
Definition append_top (nfa_stack : frames) (x : option NFA) : M frames :=
  let* top := index_last nfa_stack in
  assign_last nfa_stack (top ++ [x]).

(** [nfa_stack[-1].pop()]. *)
Definition pop_top (nfa_stack : frames) : M (option NFA * frames) :=
  let* top := index_last nfa_stack in
  let* (x, top') := pop top in
  let* nfa_stack' := assign_last nfa_stack top' in
  ret (x, nfa_stack').

Definition is_unary (char : ascii) : bool :=
  Ascii.eqb char "?" || Ascii.eqb char "*" || Ascii.eqb char "+".

(** The body of the [for] loop (lines 145-193) for [pattern[i] = char]. *)
Definition build_char (pattern : string) (i : nat) (char : ascii)
    (nfa_stack : frames) (curr_nfa : accumulators)
    : M (frames * accumulators) :=
  if is_unary char then
    if length nfa_stack =? 0 then raise (SyntaxError i)
    else
      let* (wrap, nfa_stack') :=
        if Ascii.eqb char "?" then
          let* (x, nfa_stack') := pop_top nfa_stack in
          let* wrap := NFA_init_other [x] in
          let* _ := bypass wrap in
          ret (wrap, nfa_stack')
        else if Ascii.eqb char "*" then
          let* (x, nfa_stack') := pop_top nfa_stack in
          let* wrap := NFA_init_other [x] in
          let* _ := bypass wrap in
          let* _ := loop wrap in
          ret (wrap, nfa_stack')
        else
          let* (x, nfa_stack') := pop_top nfa_stack in
          let* wrap := attr x in
          let* _ := loop wrap in
          ret (wrap, nfa_stack')
      in
      let* nfa_stack'' := append_top nfa_stack' (Some wrap) in
      ret (nfa_stack'', curr_nfa)
  else if Ascii.eqb char "|" then
    let* top := index_last nfa_stack in
    if length top =? 1 then
      let* (nfa_stack', curr_nfa') := finalize_nfa_stack nfa_stack curr_nfa in
      let* cur := index_last curr_nfa' in
      let* nfa_stack'' := append_top nfa_stack' cur in
      let* curr_nfa'' := assign_last curr_nfa' None in
      ret (nfa_stack'', curr_nfa'')
    else ret (nfa_stack, curr_nfa)
  else if Ascii.eqb char "(" then
    ret (nfa_stack ++ [[]], curr_nfa ++ [None])
  else if Ascii.eqb char ")" then
    let* (nfa_stack', curr_nfa') := finalize_nfa_stack nfa_stack curr_nfa in
    let* (_, nfa_stack'') := pop nfa_stack' in
    let* _ := index_last nfa_stack'' in
    let* (cur, curr_nfa'') := pop curr_nfa' in
    let* nfa_stack''' := append_top nfa_stack'' cur in
    ret (nfa_stack''', curr_nfa'')
  else
    let* char_state := Char_init char in
    let char_nfa := NFA_init char_state char_state in
    let* prev := lift (py_str_index pattern (Z.of_nat i - 1)) IndexError in
    if Ascii.eqb prev "|" then
      let* nfa_stack' := append_top nfa_stack (Some char_nfa) in
      ret (nfa_stack', curr_nfa)
    else
      let* top := index_last nfa_stack in
      match top with
      | _ :: _ =>
          let* last := index_last top in
          let* self := attr last in
          let* self' := connect self (Some char_nfa) in
          let* top' := assign_last top (Some self') in
          let* nfa_stack' := assign_last nfa_stack top' in
          ret (nfa_stack', curr_nfa)
      | [] =>
          let* nfa_stack' := append_top nfa_stack (Some char_nfa) in
          ret (nfa_stack', curr_nfa)
      end.

(** [for i, char in enumerate(pattern)], from index [i] on. *)
Fixpoint scan (pattern : string) (i : nat) (rest : list ascii)
    (nfa_stack : frames) (curr_nfa : accumulators)
    : M (frames * accumulators) :=
  match rest with
  | [] => ret (nfa_stack, curr_nfa)
  | char :: rest' =>
      let* (nfa_stack', curr_nfa') :=
        build_char pattern i char nfa_stack curr_nfa in
      scan pattern (S i) rest' nfa_stack' curr_nfa'
  end.

(** Lines 142-206: everything after the reset of the counter. *)
Definition build_from_counter (pattern : string) : M NFA :=
  let curr_nfa : accumulators := [None] in
  let nfa_stack : frames := [[]] in
  let* (nfa_stack', curr_nfa') :=
    scan pattern 0 (list_ascii_of_string pattern) nfa_stack curr_nfa in
  let* (_, curr_nfa'') := finalize_nfa_stack nfa_stack' curr_nfa' in
  let* end_ := End_init in
  let* first := index_first curr_nfa'' in
  let* self := attr first in
  connect self (Some (NFA_init end_ end_)).

(** [build_nfa(pattern)]: line 139 resets [State.id_count], then the scan. *)
Definition build_nfa (pattern : string) : M NFA :=
  let* _ := set_id_count 1%Z in
  build_from_counter pattern.

(** ** match_pattern (lines 222-234) *)

(** A Python [set] of objects, as a list without repetition.  The order in
    which Python iterates over a set is unspecified; the list order stands
    for one such order, and no order changes what [match_pattern] returns
    ([simulate_order_irrelevant]). *)
Fixpoint py_set (l : list ref) : list ref :=
  match l with
  | [] => []
  | x :: l' => if existsb (Nat.eqb x) l' then py_set l' else x :: py_set l'
  end.

Definition set_mem (x : ref) (s : list ref) : bool := existsb (Nat.eqb x) s.

(** Lines 230-232: [next_states.extend(s.match(char))] for [s] in
    [states]. *)
Fixpoint extend_all (depth : nat) (h : list State) (char : ascii)
    (states : list ref) (next_states : list ref) : result (list ref) :=
  match states with
  | [] => Ok next_states
  | s :: rest =>
      match State_match depth h s char with
      | Ok r => extend_all depth h char rest (next_states ++ r)
      | Raise e => Raise e
      end
  end.

(** Lines 227-234: the loop over the input and the final membership
    test. *)
Fixpoint simulate (depth : nat) (h : list State) (end_ : ref)
    (input : list ascii) (states : list ref) : result bool :=
  match input with
  | [] => Ok (set_mem end_ states)
  | char :: input' =>
      if length states =? 0 then Ok false
      else
        match extend_all depth h char states [] with
        | Ok next_states => simulate depth h end_ input' (py_set next_states)
        | Raise e => Raise e
        end
  end.

(** [match_pattern(pattern, string)], with [depth] frames available to the
    calls [s.match(char)]. *)
Definition match_pattern (depth : nat) (pattern : string) (input : string)
    : M bool :=
  let* nfa := build_nfa pattern in
  let* h := get_heap in
  let start := start_state nfa in
  let states := py_set [start] in
  fun s => (simulate depth h (end_state nfa) (list_ascii_of_string input)
              states, s).

(** ** Calls from the top level *)

(** An interpreter that holds no [State] object yet, with [State.id_count]
    at [c].  What [build_nfa] and [match_pattern] do in any other state is
    what they do here, with the new objects placed after the old ones
    ([build_nfa_relocates], [match_pattern_in_any_state]). *)
Definition boot (c : Z) : Interp := mkInterp c [].

(** The automaton returned by [build_nfa(pattern)] together with the
    arena of its nodes. *)
Definition build (c : Z) (pattern : string) : result (NFA * list State) :=
  match build_nfa pattern (boot c) with
  | (Ok nfa, s) => Ok (nfa, heap s)
  | (Raise e, _) => Raise e
  end.

(** The value of [match_pattern(pattern, input)], or the exception it
    raises. *)
Definition run_match (depth : nat) (c : Z) (pattern input : string)
    : result bool :=
  fst (match_pattern depth pattern input (boot c)).

(** ** get_id and __repr__ (lines 33-35, 49-96) *)

(** [State.get_id]. *)
Definition get_id (st : State) : Z := state_id st.

(** [%d] of Python's string formatting. *)
Definition format_d (z : Z) : string := NilZero.string_of_int (Z.to_int z).

(** [__repr__] of the four classes (lines 49-50, 71-72, 81-82, 95-96).  The
    tuple of [Char.__repr__] reads [self.match_char], which a wildcard does
    not have. *)
Definition State_repr (st : State) : result string :=
  let id := format_d (state_id st) in
  let n := format_d (Z.of_nat (length (next_states st))) in
  match cls st with
  | Char _ match_char =>
      match match_char with
      | Some c =>
          Ok ("Char{id: " ++ id ++ ", char: " ++ String c ""
              ++ ", next_states: " ++ n ++ "}")%string
      | None => Raise AttributeError
      end
  | Split => Ok ("Split{id: " ++ id ++ ", next_states: " ++ n ++ "}")%string
  | Start => Ok ("Start{id: " ++ id ++ ", next_states: " ++ n ++ "}")%string
  | End => Ok ("End{id: " ++ id ++ ", next_states: " ++ n ++ "}")%string
  end.

(** * Definitions for the statements *)

(** ** Arenas of some patterns *)

(** The arena of [build_nfa("a*")]: node 0 is the [Char], nodes 1 and 2 the
    two [Split]s of the wrapping fragment, node 3 the [End].  [bypass] gave
    node 1 the edge to node 2 and [loop] gave node 2 the edge back to
    node 1. *)
Definition star_heap : list State :=
  [ mkState (Char false (Some "a"%char)) 1 [2];
    mkState Split 2 [0; 2];
    mkState Split 3 [1; 3];
    mkState End (-1) [] ].

(** The arena of [build_nfa("a?")]. *)
Definition optional_heap : list State :=
  [ mkState (Char false (Some "a"%char)) 1 [2];
    mkState Split 2 [0; 2];
    mkState Split 3 [3];
    mkState End (-1) [] ].

(** The arena of [build_nfa("(a)(b)")]: the two groups hang in parallel
    between the [Split]s 2 and 3, with no edge from the first group to the
    second.  It is the arena of [build_nfa("a|b")]. *)
Definition groups_heap : list State :=
  [ mkState (Char false (Some "a"%char)) 1 [3];
    mkState (Char false (Some "b"%char)) 2 [3];
    mkState Split 3 [0; 1];
    mkState Split 4 [4];
    mkState End (-1) [] ].

(** The arena of [build_nfa("ab")]: a chain. *)
Definition chain_heap : list State :=
  [ mkState (Char false (Some "a"%char)) 1 [1];
    mkState (Char false (Some "b"%char)) 2 [2];
    mkState End (-1) [] ].

(** ** The two match methods in the words of the specification *)

(** What one successor [s] contributes, in the words of the specification:
    [s] itself when it is an [End], [s.match(char)] otherwise. *)
Definition step_contribution (depth : nat) (h : list State) (char : ascii)
    (s : ref) : result (list ref) :=
  if type_is_End h s then Ok [s] else State_match depth h s char.

(** The contributions of the successors, concatenated in order; a
    contribution that raises ends the call. *)
Fixpoint concat_in_order (f : ref -> result (list ref)) (succs : list ref)
    : result (list ref) :=
  match succs with
  | [] => Ok []
  | s :: rest =>
      match f s with
      | Ok part =>
          match concat_in_order f rest with
          | Ok parts => Ok (part ++ parts)
          | Raise e => Raise e
          end
      | Raise e => Raise e
      end
  end.

(** [self.match_any or self.match_char == char]. *)
Definition Char_accepts (match_any : bool) (match_char : option ascii)
    (char : ascii) : bool :=
  match_any ||
  match match_char with
  | Some c => Ascii.eqb c char
  | None => false
  end.

(** ** Triples for the monad *)

(** The two exceptions that the builder does raise. *)
Definition builder_error (e : exn) : Prop :=
  e = IndexError \/ e = AttributeError.

(** [triple m s Q]: run from [s], [m] either returns a value and a state
    that satisfy [Q] or raises one of the builder's two exceptions. *)
Definition triple {A} (m : M A) (s : Interp) (Q : A -> Interp -> Prop) : Prop :=
  match m s with
  | (Ok a, s') => Q a s'
  | (Raise e, _) => builder_error e
  end.

(** ** The invariant of the scan *)

(** The classes of the nodes made during the scan: [Char], with
    [match_char] set unless the node is a wildcard, and [Split]. *)
Definition scan_class (c : class) : Prop :=
  match c with
  | Char match_any match_char => match_any = false -> match_char <> None
  | Split => True
  | Start | End => False
  end.

(** A node made during the scan: a [Char] or a [Split] with a positive
    identity. *)
Definition scan_node (st : State) : Prop :=
  scan_class (cls st) /\ (1 <= state_id st)%Z.

(** Every successor of every node is a node of the arena. *)
Definition closed (h : list State) : Prop :=
  Forall (fun st => Forall (fun r => r < length h) (next_states st)) h.

Definition scan_inv (s : Interp) : Prop :=
  (1 <= id_count s)%Z /\ Forall scan_node (heap s) /\ closed (heap s).

Definition valid_nfa (n : nat) (nfa : NFA) : Prop :=
  start_state nfa < n /\ end_state nfa < n.

Definition valid_opt (n : nat) (x : option NFA) : Prop :=
  match x with
  | Some nfa => valid_nfa n nfa
  | None => True
  end.

Definition valid_frames (n : nat) (nfa_stack : frames) : Prop :=
  nfa_stack <> [] /\ Forall (Forall (valid_opt n)) nfa_stack.

Definition valid_accs (n : nat) (curr_nfa : accumulators) : Prop :=
  Forall (valid_opt n) curr_nfa.

(** What the builder's two lists satisfy between two steps. *)
Definition valid_locals (p : frames * accumulators) (n : nat) : Prop :=
  valid_frames n (fst p) /\ valid_accs n (snd p).

(** [keeps m s Q]: [m] keeps the invariant, only adds nodes, and its value
    satisfies [Q] for the new size of the arena. *)
Definition keeps {A} (m : M A) (s : Interp) (Q : A -> nat -> Prop) : Prop :=
  triple m s (fun a s' =>
    scan_inv s' /\ length (heap s) <= length (heap s')
    /\ Q a (length (heap s'))).

(** The shape of a returned automaton: the exit is the [End] node, made
    last; every other node was made during the scan, the entry among
    them; no successor points outside the arena. *)
Definition automaton_shape (nfa : NFA) (h : list State) : Prop :=
  start_state nfa < end_state nfa
  /\ length h = S (end_state nfa)
  /\ h !! end_state nfa = Some (mkState End (-1) [])
  /\ (forall i st, i < end_state nfa -> h !! i = Some st -> scan_node st)
  /\ closed h.

(** ** References that stay in the arena *)

Definition in_arena (h : list State) (l : list ref) : Prop :=
  Forall (fun r => r < length h) l.

(** A node on which [match] finds the attributes it reads. *)
Definition wf_node (st : State) : Prop :=
  match cls st with
  | Char match_any match_char => match_any = false -> match_char <> None
  | _ => True
  end.

(** A result that is a list of nodes of the arena, or the exception of the
    recursion limit. *)
Definition sound_step (h : list State) (r : result (list ref)) : Prop :=
  match r with
  | Ok l => in_arena h l
  | Raise e => e = RuntimeError
  end.

(** ** Moving an automaton past earlier objects *)

(** A node whose successors are moved [k] places up in the arena. *)
Definition shift_state (k : nat) (st : State) : State :=
  mkState (cls st) (state_id st) (Nat.add k <$> next_states st).

Definition shift_nfa (k : nat) (nfa : NFA) : NFA :=
  mkNFA (k + start_state nfa) (k + end_state nfa).

Definition shift_opt (k : nat) (x : option NFA) : option NFA :=
  shift_nfa k <$> x.

Definition shift_accs (k : nat) (l : accumulators) : accumulators :=
  shift_opt k <$> l.

Definition shift_frames (k : nat) (l : frames) : frames :=
  shift_accs k <$> l.

Definition shift_popped (k : nat) (p : option NFA * frames)
    : option NFA * frames :=
  (shift_opt k (fst p), shift_frames k (snd p)).

Definition shift_wrapped (k : nat) (p : NFA * frames) : NFA * frames :=
  (shift_nfa k (fst p), shift_frames k (snd p)).

Definition shift_locals (k : nat) (p : frames * accumulators)
    : frames * accumulators :=
  (shift_frames k (fst p), shift_accs k (snd p)).

(** [f] on a popped element and on the rest of the list. *)
Definition pop_map {A} (f : A -> A) (p : A * list A) : A * list A :=
  (f (fst p), f <$> snd p).

Definition map_result {A B} (f : A -> B) (r : result A) : result B :=
  match r with
  | Ok a => Ok (f a)
  | Raise e => Raise e
  end.

(** [s'] is [s] with the objects [old] of earlier calls below its own:
    the same counter, and the arena of [s] moved past [old]. *)
Definition relocated (old : list State) (s s' : Interp) : Prop :=
  id_count s' = id_count s
  /\ heap s' = old ++ (shift_state (length old) <$> heap s).

(** [m'] run next to [old] does what [m] does alone, up to [f] on the
    value. *)
Definition sim {A} (old : list State) (f : A -> A) (m m' : M A) : Prop :=
  forall s s', relocated old s s' ->
    fst (m' s') = map_result f (fst (m s))
    /\ relocated old (snd (m s)) (snd (m' s')).

(** ** Lists that stand for sets *)

(** Two lists that stand for the same set. *)
Definition same_set (l l' : list ref) : Prop :=
  forall x, In x l <-> In x l'.

(** The same boolean, or an exception on both sides. *)
Definition same_outcome (r r' : result bool) : Prop :=
  match r, r' with
  | Ok b, Ok b' => b = b'
  | Raise _, Raise _ => True
  | _, _ => False
  end.

(** ** Literals and the symbols they accept *)

(** A character that takes the last branch of the loop (lines 184-193): no
    quantifier, no ["|"], no parenthesis.  The wildcard ["."] is one. *)
Definition is_literal (char : ascii) : bool :=
  negb (is_unary char) && negb (Ascii.eqb char "|")
  && negb (Ascii.eqb char "(") && negb (Ascii.eqb char ")").

(** The class and attributes that [Char(char)] gives its node. *)
Definition Char_class (char : ascii) : class :=
  if Ascii.eqb char "." then Char true None else Char false (Some char).

(** The test of [Char.match] for the node of the pattern character [c]. *)
Definition accepts (c x : ascii) : bool := Ascii.eqb c "." || Ascii.eqb c x.

(** [self.match_any] of a [Char] node. *)
Definition is_wildcard (st : State) : bool :=
  match cls st with
  | Char match_any _ => match_any
  | _ => false
  end.

(** ** One literal under one operator *)

(** The automaton of [c*]: entry 1, exit 3. *)
Definition star_arena (c : ascii) : list State :=
  [ mkState (Char_class c) 1 [2];
    mkState Split 2 [0; 2];
    mkState Split 3 [1; 3];
    mkState End (-1) [] ].

(** The automaton of [c+]: entry 0, exit 1. *)
Definition plus_arena (c : ascii) : list State :=
  [ mkState (Char_class c) 1 [0; 1]; mkState End (-1) [] ].

(** One symbol or more, each accepted by [c]. *)
Definition repeats (c : ascii) (input : list ascii) : bool :=
  match input with
  | [] => false
  | _ :: _ => forallb (accepts c) input
  end.

(** The automaton of [c?]: entry 1, exit 3. *)
Definition optional_arena (c : ascii) : list State :=
  [ mkState (Char_class c) 1 [2];
    mkState Split 2 [0; 2];
    mkState Split 3 [3];
    mkState End (-1) [] ].

(** What [c?] accepts: any one symbol, and any two symbols of which [c]
    accepts the first. *)
Definition optional_accepts (c : ascii) (input : list ascii) : bool :=
  match input with
  | [_] => true
  | [x; _] => accepts c x
  | _ => false
  end.

(** The automaton of [a|b]: entry 2, exit 4. *)
Definition alternation_arena (a b : ascii) : list State :=
  [ mkState (Char_class a) 1 [3];
    mkState (Char_class b) 2 [3];
    mkState Split 3 [0; 1];
    mkState Split 4 [4];
    mkState End (-1) [] ].

(** What [a|b] accepts: two symbols of which [a] or [b] accepts the
    first. *)
Definition alternation_accepts (a b : ascii) (input : list ascii) : bool :=
  match input with
  | [x; _] => accepts a x || accepts b x
  | _ => false
  end.

(** ** Chains of literals *)

(** One [Char] node for each character of [cs], from index [base] on, each
    with its edge to the next index. *)
Fixpoint chain_nodes (base : nat) (cs : list ascii) : list State :=
  match cs with
  | [] => []
  | c :: rest =>
      mkState (Char_class c) (Z.of_nat base + 1) [S base]
      :: chain_nodes (S base) rest
  end.

(** The chain closed by the [End] node. *)
Definition chain_arena (cs : list ascii) : list State :=
  chain_nodes 0 cs ++ [mkState End (-1) []].

(** The input has the length of the pattern and every character of the
    pattern accepts the symbol at its place. *)
Fixpoint literal_match (cs input : list ascii) : bool :=
  match cs, input with
  | [], [] => true
  | c :: cs', x :: input' => accepts c x && literal_match cs' input'
  | _, _ => false
  end.

(** The arena while the scan is at the end of [init ++ [l]]: the last node
    has no successor yet. *)
Definition open_arena (init : list ascii) (l : ascii) : list State :=
  chain_nodes 0 init
  ++ [mkState (Char_class l) (Z.of_nat (length init) + 1) []].

(** The interpreter at that point of a build that began with the counter
    at 1. *)
Definition open_state (init : list ascii) (l : ascii) : Interp :=
  mkInterp (Z.of_nat (S (length init)) + 1) (open_arena init l).

(** ** Invariants that every step of a build keeps *)

(** [m] keeps the property [P] of the interpreter state, whether it
    returns or raises. *)
Definition preserves {A} (P : Interp -> Prop) (m : M A) : Prop :=
  forall s, P s -> P (snd (m s)).

(** While no [End] has been made, the node at index [j] has identity
    [j + 1] and the counter is one more than the number of nodes. *)
Definition ids_inv (s : Interp) : Prop :=
  id_count s = (Z.of_nat (length (heap s)) + 1)%Z
  /\ forall j st, heap s !! j = Some st -> state_id st = (Z.of_nat j + 1)%Z.

(** The attributes that [Char.__init__] sets: [match_char] exactly when
    [match_any] is false. *)
Definition attrs_set (c : class) : Prop :=
  match c with
  | Char match_any match_char =>
      match_char = None <-> match_any = true
  | _ => True
  end.

Definition attrs_inv (s : Interp) : Prop :=
  Forall (fun st => attrs_set (cls st)) (heap s).

(** ** Paths in the arena *)

(** An edge of the graph: [b] is in [a.next_states]. *)
Definition edge (h : list State) (a b : ref) : Prop :=
  exists st, h !! a = Some st /\ In b (next_states st).

(** A path of edges, possibly empty. *)
Inductive reachable (h : list State) : ref -> ref -> Prop :=
| reachable_refl a : reachable h a a
| reachable_step a b c : edge h a b -> reachable h b c -> reachable h a c.

(** The arena [h'] has the nodes and the edges of [h], and maybe more. *)
Definition grows (h h' : list State) : Prop :=
  length h <= length h' /\ forall a b, edge h a b -> edge h' a b.

(** The invariant that the docstring of [NFA] asks for: both states exist
    and the end state is reachable from the start state. *)
Definition connected (h : list State) (nfa : NFA) : Prop :=
  start_state nfa < length h /\ end_state nfa < length h
  /\ reachable h (start_state nfa) (end_state nfa).

Definition connected_opt (h : list State) (x : option NFA) : Prop :=
  match x with
  | Some nfa => connected h nfa
  | None => True
  end.

Definition connected_accs (h : list State) (l : accumulators) : Prop :=
  Forall (connected_opt h) l.

Definition connected_frames (h : list State) (l : frames) : Prop :=
  Forall (connected_accs h) l.

Definition connected_locals (p : frames * accumulators) (h : list State)
    : Prop :=
  connected_frames h (fst p) /\ connected_accs h (snd p).

(** [links m s Q]: if [m] returns, the arena has grown and the value
    satisfies [Q] in it. *)
Definition links {A} (m : M A) (s : Interp) (Q : A -> list State -> Prop)
    : Prop :=
  match m s with
  | (Ok a, s') => grows (heap s) (heap s') /\ Q a (heap s')
  | (Raise _, _) => True
  end.

(** * Properties *)

(** ** Concrete runs *)

Lemma build_star (c : Z) : build c "a*" = Ok (mkNFA 1 3, star_heap).
Proof. reflexivity. Qed.

(** On [star_heap] the entry [Split] calls the exit [Split], which calls
    the entry again, before either returns: no number of frames is
    enough. *)
Lemma star_entry_never_returns (depth : nat) :
  State_match depth star_heap 1 "a" = Raise RuntimeError
  /\ State_match (S depth) star_heap 1 "a" = Raise RuntimeError.
Proof.
  induction depth as [|d [IH0 IH1]].
  - split; reflexivity.
  - split; [exact IH1|].
    change (State_match (S (S d)) star_heap 1 "a")
      with (Split_match_loop (fun state => State_match (S d) star_heap state "a")
              star_heap [0; 2] []).
    cbn [Split_match_loop].
    change (type_is_End star_heap 0) with false.
    change (type_is_End star_heap 2) with false.
    cbv iota.
    change (State_match (S d) star_heap 0 "a") with (Ok (A:=list ref) [2]).
    cbv iota.
    change (State_match (S d) star_heap 2 "a")
      with (Split_match_loop (fun state => State_match d star_heap state "a")
              star_heap [1; 3] []).
    cbn [Split_match_loop].
    change (type_is_End star_heap 1) with false.
    cbv iota. rewrite IH0. reflexivity.
Qed.

(** C1. [match_pattern("a*", "a")] does not return a boolean: whatever the
    recursion limit, the first call of [Split.match] on the entry node
    recurses through the cycle between the two [Split]s that [bypass] and
    [loop] create, until the interpreter raises [RuntimeError]. *)
Theorem match_star_exceeds_any_recursion_limit :
  forall (depth : nat) (c : Z),
    run_match depth c "a*" "a" = Raise RuntimeError.
Proof.
  intros depth c. unfold run_match, match_pattern, bind.
  change (build_nfa "a*" (boot c))
    with (Ok (mkNFA 1 3), mkInterp 4%Z star_heap).
  cbn -[State_match star_heap].
  destruct (star_entry_never_returns depth) as [H _]. rewrite H. reflexivity.
Qed.

(** C2. On the empty input the loop of [match_pattern] runs no step, so no
    edge is followed, the bypass edge included: the test is whether the
    [End] node is the entry node itself, and both calls return [False]. *)
Theorem match_star_and_optional_reject_empty_input :
  forall (depth : nat) (c : Z),
    run_match depth c "a*" "" = Ok false
    /\ run_match depth c "a?" "" = Ok false.
Proof. intros depth c. split; reflexivity. Qed.

(** C3. [build_nfa("")] raises: nothing was scanned, [finalize_nfa_stack]
    leaves [curr_nfa[0]] at [None], and line 205 calls [connect] on it.
    [match_pattern] fails in the same way on every input. *)
Theorem build_empty_pattern_raises :
  forall (depth : nat) (c : Z),
    build c "" = Raise AttributeError
    /\ run_match depth c "" "" = Raise AttributeError
    /\ run_match depth c "" "a" = Raise AttributeError.
Proof. intros depth c. repeat split; reflexivity. Qed.

(** C4. [build_nfa("*")] pops from the empty operand list of the only
    frame, an [IndexError]; [build_nfa("(a")] ends with [curr_nfa[0]] at
    [None] and calls [connect] on it, an [AttributeError].  Neither is the
    [SyntaxError] of line 148. *)
Theorem build_malformed_patterns_raise_internal_errors :
  forall c : Z,
    build c "*" = Raise IndexError
    /\ build c "(a" = Raise AttributeError.
Proof. intros c. split; reflexivity. Qed.

(** C5. A closed group is appended to the operand list of the parent frame
    as one more operand, never connected to the operand before it, and
    [finalize_nfa_stack] wraps a list of several operands in parallel: the
    automaton of ["(a)(b)"] is that of ["a|b"], not that of ["ab"], and it
    accepts ["ba"]. *)
Theorem adjacent_groups_become_alternatives :
  forall (depth : nat) (c : Z),
    build c "(a)(b)" = Ok (mkNFA 2 4, groups_heap)
    /\ build c "a|b" = Ok (mkNFA 2 4, groups_heap)
    /\ build c "ab" = Ok (mkNFA 0 2, chain_heap)
    /\ run_match (S (S depth)) c "(a)(b)" "ba" = Ok true
    /\ run_match (S (S depth)) c "ab" "ba" = Ok false
    /\ run_match (S (S depth)) c "(a)(b)" "ab" = Ok true
    /\ run_match (S (S depth)) c "(a)(b)" "b" = Ok false.
Proof. intros depth c. repeat split; reflexivity. Qed.

(** ** Split.match as a concatenation *)

Lemma Split_match_loop_acc (rec : ref -> result (list ref)) (h : list State)
    (states matches : list ref) :
  Split_match_loop rec h states matches =
  match concat_in_order
          (fun s => if type_is_End h s then Ok [s] else rec s) states with
  | Ok parts => Ok (matches ++ parts)
  | Raise e => Raise e
  end.
Proof.
  revert matches. induction states as [|s rest IH]; intros matches; simpl.
  - now rewrite app_nil_r.
  - destruct (type_is_End h s).
    + rewrite IH. destruct (concat_in_order _ rest); [|reflexivity].
      now rewrite <- app_assoc.
    + destruct (rec s) as [part|e]; [|reflexivity].
      rewrite IH. destruct (concat_in_order _ rest); [|reflexivity].
      now rewrite <- app_assoc.
Qed.

(** C7. For a [Split] node (or a [Start], which inherits the method) the
    result of [match] is the concatenation, over its successors in order,
    of [[s]] for an [End] successor and of [s.match(char)] for any other. *)
Theorem Split_match_is_concatenation :
  forall (depth : nat) (h : list State) (self : ref) (st : State)
         (char : ascii),
    h !! self = Some st ->
    cls st = Split \/ cls st = Start ->
    State_match (S depth) h self char =
    concat_in_order (step_contribution depth h char) (next_states st).
Proof.
  intros depth h self st char Hself Hcls. cbn [State_match]. rewrite Hself.
  assert (Hloop :
    Split_match_loop (fun state => State_match depth h state char) h
      (next_states st) [] =
    concat_in_order (step_contribution depth h char) (next_states st)).
  { rewrite Split_match_loop_acc. unfold step_contribution.
    destruct (concat_in_order _ (next_states st)); reflexivity. }
  destruct Hcls as [-> | ->]; exact Hloop.
Qed.

(** The entry [Split] of ["a?"] stepped on ["a"]: the [Char] gives its
    successor, the exit [Split] exposes the [End]. *)
Lemma Split_match_is_concatenation_witness :
  State_match 3 optional_heap 1 "a" = Ok [2; 3].
Proof.
  exact (Split_match_is_concatenation 2 optional_heap 1
           (mkState Split 2 [0; 2]) "a"%char eq_refl (or_introl eq_refl)).
Defined.

(** ** Char.match and the wildcard *)

(** C8. [Char.match] returns the successor list of the node when the
    wildcard flag is set or the symbol is [match_char], and the empty list
    otherwise ([match_char] is set on every node that is no wildcard, as
    [Char.__init__] leaves it); it reads the arena and changes nothing.
    So ["."] matches every input of one symbol and not the empty input. *)
Theorem Char_match_and_wildcard :
  (forall (depth : nat) (h : list State) (self : ref) (st : State)
          (match_any : bool) (match_char : option ascii) (char : ascii),
      h !! self = Some st ->
      cls st = Char match_any match_char ->
      (match_any = false -> match_char <> None) ->
      State_match (S depth) h self char =
      Ok (if Char_accepts match_any match_char char
          then next_states st else []))
  /\ (forall (depth : nat) (c : Z) (x : ascii),
        run_match (S depth) c "." (String x EmptyString) = Ok true)
  /\ (forall (depth : nat) (c : Z), run_match depth c "." "" = Ok false).
Proof.
  split; [|split].
  - intros depth h self st ma mc char Hself Hcls Hset.
    cbn [State_match]. rewrite Hself, Hcls. unfold Char_accepts.
    destruct ma; [reflexivity|]. destruct mc as [m|].
    + cbn [orb]. destruct (Ascii.eqb m char); reflexivity.
    + now destruct (Hset eq_refl).
  - intros depth c x. reflexivity.
  - intros depth c. reflexivity.
Qed.

(** The [Char] node of ["ab"] for ["a"], stepped on ["a"]. *)
Lemma Char_match_and_wildcard_witness :
  State_match 1 chain_heap 0 "a" = Ok [1].
Proof.
  refine (proj1 Char_match_and_wildcard 0 chain_heap 0
            (mkState (Char false (Some "a"%char)) 1 [1])
            false (Some "a"%char) "a"%char eq_refl eq_refl _).
  intros _ H. discriminate H.
Defined.

(** ** The identity counter across calls *)

(** Without the reset of line 139 the identities would depend on the
    counter that the earlier builds left. *)
Example scan_alone_depends_on_counter :
  fst (build_from_counter "a" (boot 1)) = Ok (mkNFA 0 1)
  /\ heap (snd (build_from_counter "a" (boot 1))) !! 0
     = Some (mkState (Char false (Some "a"%char)) 1 [1])
  /\ heap (snd (build_from_counter "a" (boot 5))) !! 0
     = Some (mkState (Char false (Some "a"%char)) 5 [1]).
Proof. repeat split; reflexivity. Qed.

(** ** Reasoning about the monad *)

Lemma triple_ret {A} (a : A) s (Q : A -> Interp -> Prop) :
  Q a s -> triple (ret a) s Q.
Proof. intros H. exact H. Qed.

Lemma triple_bind {A B} (m : M A) (k : A -> M B) s
    (Q1 : A -> Interp -> Prop) (Q2 : B -> Interp -> Prop) :
  triple m s Q1 ->
  (forall a s', Q1 a s' -> triple (k a) s' Q2) ->
  triple (bind m k) s Q2.
Proof.
  unfold triple, bind. intros Hm Hk.
  destruct (m s) as [[a|e] s']; [now apply Hk | exact Hm].
Qed.

Lemma triple_mono {A} (m : M A) s (Q1 Q2 : A -> Interp -> Prop) :
  triple m s Q1 -> (forall a s', Q1 a s' -> Q2 a s') -> triple m s Q2.
Proof.
  unfold triple. intros Hm HQ.
  destruct (m s) as [[a|e] s']; [now apply HQ | exact Hm].
Qed.

Lemma triple_lift {A} (o : option A) (e : exn) s (Q : A -> Interp -> Prop) :
  builder_error e ->
  (forall a, o = Some a -> Q a s) ->
  triple (lift o e) s Q.
Proof.
  intros He HQ. destruct o as [a|]; cbn; [now apply HQ | exact He].
Qed.

(** ** Python list operations *)

Lemma py_pop_Some {A} (l : list A) x r :
  py_pop l = Some (x, r) <-> l = r ++ [x].
Proof.
  unfold py_pop. split.
  - intros H. destruct (rev l) as [|y t] eqn:E; [discriminate|].
    injection H as <- <-.
    rewrite <- (rev_involutive l), E. reflexivity.
  - intros ->. rewrite rev_app_distr. cbn. now rewrite rev_involutive.
Qed.

Lemma py_last_Some {A} (l : list A) x :
  py_last l = Some x <-> exists r, l = r ++ [x].
Proof.
  unfold py_last. split.
  - intros H. destruct (py_pop l) as [[y r]|] eqn:E; [|discriminate].
    injection H as ->. exists r. now apply py_pop_Some.
  - intros [r ->]. now rewrite (proj2 (py_pop_Some (r ++ [x]) x r) eq_refl).
Qed.

Lemma py_set_last_Some {A} (l : list A) x l' :
  py_set_last l x = Some l' <-> exists r y, l = r ++ [y] /\ l' = r ++ [x].
Proof.
  unfold py_set_last. split.
  - intros H. destruct (py_pop l) as [[y r]|] eqn:E; [|discriminate].
    injection H as <-. exists r, y. split; [now apply py_pop_Some | reflexivity].
  - intros (r & y & -> & ->).
    now rewrite (proj2 (py_pop_Some (r ++ [y]) y r) eq_refl).
Qed.

(** ** The invariant of the scan *)

Lemma keeps_ret {A} (a : A) s (Q : A -> nat -> Prop) :
  scan_inv s -> Q a (length (heap s)) -> keeps (ret a) s Q.
Proof. intros Hs HQ. apply triple_ret. auto. Qed.

Lemma keeps_bind {A B} (m : M A) (k : A -> M B) s
    (Q1 : A -> nat -> Prop) (Q2 : B -> nat -> Prop) :
  keeps m s Q1 ->
  (forall a s', scan_inv s' -> length (heap s) <= length (heap s') ->
                Q1 a (length (heap s')) -> keeps (k a) s' Q2) ->
  keeps (bind m k) s Q2.
Proof.
  intros Hm Hk. eapply triple_bind; [exact Hm|].
  intros a s' (Hinv & Hle & HQ). cbn beta.
  eapply triple_mono; [now apply Hk|].
  intros b s'' (Hinv' & Hle' & HQ'). split; [exact Hinv'|].
  split; [lia | exact HQ'].
Qed.

Lemma keeps_mono {A} (m : M A) s (Q1 Q2 : A -> nat -> Prop) :
  keeps m s Q1 -> (forall a n, length (heap s) <= n -> Q1 a n -> Q2 a n) ->
  keeps m s Q2.
Proof.
  intros Hm HQ. eapply triple_mono; [exact Hm|].
  intros a s' (Hinv & Hle & H). auto.
Qed.

Lemma keeps_lift {A} (o : option A) (e : exn) s (Q : A -> nat -> Prop) :
  builder_error e ->
  scan_inv s ->
  (forall a, o = Some a -> Q a (length (heap s))) ->
  keeps (lift o e) s Q.
Proof. intros He Hs HQ. apply triple_lift; auto. Qed.

Lemma valid_nfa_mono n n' nfa : n <= n' -> valid_nfa n nfa -> valid_nfa n' nfa.
Proof. unfold valid_nfa. lia. Qed.

Lemma valid_opt_mono n n' x : n <= n' -> valid_opt n x -> valid_opt n' x.
Proof. destruct x; cbn; [apply valid_nfa_mono | auto]. Qed.

Lemma valid_accs_mono n n' l : n <= n' -> valid_accs n l -> valid_accs n' l.
Proof.
  unfold valid_accs. intros Hle H. eapply Forall_impl; [exact H|].
  intros x. now apply valid_opt_mono.
Qed.

Lemma valid_frames_mono n n' l :
  n <= n' -> valid_frames n l -> valid_frames n' l.
Proof.
  unfold valid_frames. intros Hle [Hne H]. split; [exact Hne|].
  eapply Forall_impl; [exact H|]. intros f. now apply valid_accs_mono.
Qed.

(** ** The primitives keep the invariant *)

Lemma closed_alloc h st :
  closed h -> next_states st = [] -> closed (h ++ [st]).
Proof.
  unfold closed. intros Hh Hst. rewrite length_app. apply Forall_app. split.
  - eapply Forall_impl; [exact Hh|]. intros x Hx. cbn beta in Hx.
    eapply Forall_impl; [exact Hx|]. intros r Hr. cbn beta in *. lia.
  - apply Forall_singleton. rewrite Hst. constructor.
Qed.

Lemma keeps_State_init (c : class) s :
  scan_class c -> scan_inv s ->
  keeps (State_init c None) s (fun r n => r < n).
Proof.
  intros Hc (Hid & Hnodes & Hcl). unfold keeps, triple. cbn.
  rewrite length_app. cbn. repeat split; cbn [id_count heap].
  - lia.
  - apply Forall_app. split; [exact Hnodes|]. apply Forall_singleton.
    split; [exact Hc | exact Hid].
  - now apply closed_alloc.
  - lia.
  - lia.
Qed.

Lemma keeps_add_next_state (a b : ref) s :
  scan_inv s -> a < length (heap s) -> b < length (heap s) ->
  keeps (add_next_state a b) s (fun _ _ => True).
Proof.
  intros (Hid & Hnodes & Hcl) Ha Hb. unfold keeps, triple. cbn.
  rewrite length_alter. repeat split; cbn [id_count heap].
  - exact Hid.
  - apply Forall_alter; [exact Hnodes|]. intros x _ Hx. exact Hx.
  - unfold closed in *. rewrite length_alter.
    apply Forall_alter; [exact Hcl|]. intros x _ Hx. cbn.
    apply Forall_app. split; [exact Hx|]. now apply Forall_singleton.
  - lia.
Qed.

Lemma keeps_Char_init (char : ascii) s :
  scan_inv s -> keeps (Char_init char) s (fun r n => r < n).
Proof.
  intros Hs. unfold Char_init.
  destruct (Ascii.eqb char "."); now apply keeps_State_init.
Qed.

Lemma keeps_Split_init s :
  scan_inv s -> keeps Split_init s (fun r n => r < n).
Proof. intros Hs. now apply keeps_State_init. Qed.

(** ** The methods of NFA keep the invariant *)

Lemma keeps_attr (x : option NFA) s :
  scan_inv s -> valid_opt (length (heap s)) x ->
  keeps (attr x) s (fun nfa n => valid_nfa n nfa).
Proof.
  intros Hs Hx. apply keeps_lift; [now right | exact Hs |].
  intros nfa ->. exact Hx.
Qed.

Lemma keeps_connect (self : NFA) (next_nfa : option NFA) s :
  scan_inv s ->
  valid_nfa (length (heap s)) self ->
  valid_opt (length (heap s)) next_nfa ->
  keeps (connect self next_nfa) s (fun nfa n => valid_nfa n nfa).
Proof.
  intros Hs Hself Hnext. unfold connect.
  eapply keeps_bind; [now apply keeps_attr|].
  intros next s1 Hs1 Hle1 Hn. cbn beta in Hn.
  pose proof (valid_nfa_mono _ _ self Hle1 Hself) as Hself1.
  eapply keeps_bind;
    [apply keeps_add_next_state; [exact Hs1 | apply Hself1 | apply Hn]|].
  intros _ s2 Hs2 Hle2 _. apply keeps_ret; [exact Hs2|].
  destruct Hself1, Hn. split; cbn; lia.
Qed.

Lemma keeps_loop (self : NFA) s :
  scan_inv s -> valid_nfa (length (heap s)) self ->
  keeps (loop self) s (fun _ _ => True).
Proof. intros Hs [H1 H2]. now apply keeps_add_next_state. Qed.

Lemma keeps_bypass (self : NFA) s :
  scan_inv s -> valid_nfa (length (heap s)) self ->
  keeps (bypass self) s (fun _ _ => True).
Proof. intros Hs [H1 H2]. now apply keeps_add_next_state. Qed.

Lemma keeps_wrap (self : NFA) (other_nfa : option NFA) s :
  scan_inv s ->
  valid_nfa (length (heap s)) self ->
  valid_opt (length (heap s)) other_nfa ->
  keeps (wrap self other_nfa) s (fun _ _ => True).
Proof.
  intros Hs Hself Hother. unfold wrap.
  eapply keeps_bind; [now apply keeps_attr|].
  intros other s1 Hs1 Hle1 Ho. cbn beta in Ho.
  pose proof (valid_nfa_mono _ _ self Hle1 Hself) as Hself1.
  eapply keeps_bind;
    [apply keeps_add_next_state; [exact Hs1 | apply Hself1 | apply Ho]|].
  intros _ s2 Hs2 Hle2 _.
  apply keeps_add_next_state; [exact Hs2 | |].
  - destruct Ho. lia.
  - destruct Hself1. lia.
Qed.

Lemma keeps_wrap_all (self : NFA) (other_nfa : list (option NFA)) s :
  scan_inv s ->
  valid_nfa (length (heap s)) self ->
  valid_accs (length (heap s)) other_nfa ->
  keeps (wrap_all self other_nfa) s (fun _ _ => True).
Proof.
  revert s. induction other_nfa as [|x rest IH]; intros s Hs Hself Hother.
  - now apply keeps_ret.
  - cbn [wrap_all]. apply Forall_cons in Hother as [Hx Hrest].
    eapply keeps_bind; [now apply keeps_wrap|].
    intros _ s1 Hs1 Hle1 _. apply IH; [exact Hs1 | |].
    + now apply (valid_nfa_mono _ _ self Hle1).
    + now apply (valid_accs_mono _ _ rest Hle1).
Qed.

Lemma keeps_NFA_init_other (other_nfa : list (option NFA)) s :
  scan_inv s ->
  valid_accs (length (heap s)) other_nfa ->
  keeps (NFA_init_other other_nfa) s (fun nfa n => valid_nfa n nfa).
Proof.
  intros Hs Hother. unfold NFA_init_other.
  eapply keeps_bind; [now apply keeps_Split_init|].
  intros a s1 Hs1 Hle1 Ha. cbn beta in Ha.
  eapply keeps_bind; [now apply keeps_Split_init|].
  intros b s2 Hs2 Hle2 Hb. cbn beta in Hb.
  assert (Hself : valid_nfa (length (heap s2)) (mkNFA a b)).
  { split; cbn; lia. }
  eapply keeps_bind.
  - apply keeps_wrap_all; [exact Hs2 | exact Hself |].
    apply (valid_accs_mono (length (heap s))); [lia | exact Hother].
  - intros _ s3 Hs3 Hle3 _. apply keeps_ret; [exact Hs3|].
    now apply (valid_nfa_mono _ _ _ Hle3).
Qed.

(** ** The list operations of the builder *)

Lemma keeps_index_last {A} (l : list A) s :
  scan_inv s -> keeps (index_last l) s (fun x _ => exists r, l = r ++ [x]).
Proof.
  intros Hs. apply keeps_lift; [now left | exact Hs |].
  intros x Hx. now apply py_last_Some.
Qed.

Lemma keeps_pop {A} (l : list A) s :
  scan_inv s -> keeps (pop l) s (fun p _ => l = snd p ++ [fst p]).
Proof.
  intros Hs. apply keeps_lift; [now left | exact Hs |].
  intros [x r] Hx. now apply py_pop_Some.
Qed.

Lemma keeps_assign_last {A} (l : list A) (x : A) s :
  scan_inv s ->
  keeps (assign_last l x) s
    (fun l' _ => exists r y, l = r ++ [y] /\ l' = r ++ [x]).
Proof.
  intros Hs. apply keeps_lift; [now left | exact Hs |].
  intros l' Hl'. now apply py_set_last_Some.
Qed.

Lemma valid_accs_snoc n (l : accumulators) x :
  valid_accs n (l ++ [x]) <-> valid_accs n l /\ valid_opt n x.
Proof.
  unfold valid_accs. rewrite Forall_app, Forall_singleton. reflexivity.
Qed.

Lemma valid_frames_snoc n (l : frames) top :
  valid_frames n (l ++ [top])
  <-> Forall (Forall (valid_opt n)) l /\ valid_accs n top.
Proof.
  unfold valid_frames, valid_accs. rewrite Forall_app, Forall_singleton.
  split; [tauto|]. intros H. split; [|exact H]. now destruct l.
Qed.

Lemma valid_frames_push n (l : frames) top :
  valid_frames n l -> valid_accs n top -> valid_frames n (l ++ [top]).
Proof. intros [_ Hl] Htop. apply valid_frames_snoc. now split. Qed.

Ltac mono :=
  match goal with
  | H : valid_nfa ?n ?x |- valid_nfa ?m ?x =>
      apply (valid_nfa_mono n m x); [lia | exact H]
  | H : valid_opt ?n ?x |- valid_opt ?m ?x =>
      apply (valid_opt_mono n m x); [lia | exact H]
  | H : valid_accs ?n ?x |- valid_accs ?m ?x =>
      apply (valid_accs_mono n m x); [lia | exact H]
  | H : valid_frames ?n ?x |- valid_frames ?m ?x =>
      apply (valid_frames_mono n m x); [lia | exact H]
  end.

Ltac kstep lem := eapply keeps_bind; [lem|]; cbn beta.

Lemma keeps_append_top (nfa_stack : frames) (x : option NFA) s :
  scan_inv s ->
  valid_frames (length (heap s)) nfa_stack ->
  valid_opt (length (heap s)) x ->
  keeps (append_top nfa_stack x) s (fun l n => valid_frames n l).
Proof.
  intros Hs Hns Hx. unfold append_top.
  kstep ltac:(now apply keeps_index_last).
  intros top s1 Hs1 Hle1 [r ->].
  eapply keeps_mono; [now apply keeps_assign_last|].
  intros l' n Hn (r' & y & Heq & ->). cbn beta.
  apply app_inj_tail in Heq as [<- <-].
  assert (Hns' : valid_frames n (r ++ [top])) by mono.
  apply valid_frames_snoc in Hns' as [Hr Htop].
  apply valid_frames_snoc. split; [exact Hr|].
  apply valid_accs_snoc. split; [exact Htop | mono].
Qed.

Lemma keeps_pop_top (nfa_stack : frames) s :
  scan_inv s ->
  valid_frames (length (heap s)) nfa_stack ->
  keeps (pop_top nfa_stack) s
    (fun p n => valid_opt n (fst p) /\ valid_frames n (snd p)).
Proof.
  intros Hs Hns. unfold pop_top.
  kstep ltac:(now apply keeps_index_last).
  intros top s1 Hs1 Hle1 [r ->].
  kstep ltac:(now apply keeps_pop).
  intros [x top'] s2 Hs2 Hle2 Htop. cbn [fst snd] in Htop. subst top.
  kstep ltac:(now apply keeps_assign_last).
  intros l' s3 Hs3 Hle3 (r' & y & Heq & ->).
  apply app_inj_tail in Heq as [<- <-].
  apply keeps_ret; [exact Hs3|]. cbn [fst snd].
  assert (Hns' : valid_frames (length (heap s3)) (r ++ [top' ++ [x]])) by mono.
  apply valid_frames_snoc in Hns' as [Hr Htop].
  apply valid_accs_snoc in Htop as [Htop' Hx].
  split; [exact Hx|]. apply valid_frames_snoc. now split.
Qed.

Lemma keeps_finalize_nfa_stack (nfa_stack : frames) (curr_nfa : accumulators) s :
  scan_inv s ->
  valid_frames (length (heap s)) nfa_stack ->
  valid_accs (length (heap s)) curr_nfa ->
  keeps (finalize_nfa_stack nfa_stack curr_nfa) s valid_locals.
Proof.
  intros Hs Hns Hcn. unfold finalize_nfa_stack.
  kstep ltac:(now apply keeps_index_last).
  intros top s1 Hs1 Hle1 [r Hr].
  assert (Htop : valid_accs (length (heap s)) top).
  { subst nfa_stack. now apply valid_frames_snoc in Hns. }
  destruct (1 <? length top).
  - kstep ltac:(apply keeps_NFA_init_other; [exact Hs1 | mono]).
    intros wrap s2 Hs2 Hle2 Hwrap.
    kstep ltac:(now apply keeps_index_last).
    intros cur s3 Hs3 Hle3 [rc ->].
    apply valid_accs_snoc in Hcn as [Hrc Hcur].
    destruct cur as [self|].
    + kstep ltac:(apply keeps_connect; [exact Hs3 | cbn in Hcur; mono
                                        | cbn; mono]).
      intros self' s4 Hs4 Hle4 Hself'.
      kstep ltac:(now apply keeps_assign_last).
      intros l' s5 Hs5 Hle5 (r' & y & Heq & ->).
      apply app_inj_tail in Heq as [<- <-].
      apply keeps_ret; [exact Hs5|]. split; cbn [fst snd]; [mono|].
      apply valid_accs_snoc. split; [mono | cbn; mono].
    + kstep ltac:(now apply keeps_assign_last).
      intros l' s4 Hs4 Hle4 (r' & y & Heq & ->).
      apply app_inj_tail in Heq as [<- <-].
      apply keeps_ret; [exact Hs4|]. split; cbn [fst snd]; [mono|].
      apply valid_accs_snoc. split; [mono | cbn; mono].
  - destruct (length top =? 1).
    + kstep ltac:(now apply keeps_index_last).
      intros cur s2 Hs2 Hle2 [rc ->].
      apply valid_accs_snoc in Hcn as [Hrc Hcur].
      destruct cur as [self|].
      * kstep ltac:(now apply keeps_pop).
        intros [x top'] s3 Hs3 Hle3 E. cbn [fst snd] in E. subst top.
        apply valid_accs_snoc in Htop as [Htop' Hx].
        kstep ltac:(now apply keeps_assign_last).
        intros ns' s4 Hs4 Hle4 (r' & y & Heq & ->).
        rewrite Hr in Heq. apply app_inj_tail in Heq as [<- <-].
        subst nfa_stack. apply valid_frames_snoc in Hns as [Hr' _].
        kstep ltac:(apply keeps_connect; [exact Hs4 | cbn in Hcur; mono | mono]).
        intros self' s5 Hs5 Hle5 Hself'.
        kstep ltac:(now apply keeps_assign_last).
        intros cn' s6 Hs6 Hle6 (r' & y & Heq & ->).
        apply app_inj_tail in Heq as [<- <-].
        apply keeps_ret; [exact Hs6|]. split; cbn [fst snd].
        -- apply valid_frames_snoc. split; [|mono].
           eapply Forall_impl; [exact Hr'|]. intros f Hf.
           change (valid_accs (length (heap s6)) f).
           change (valid_accs (length (heap s)) f) in Hf. mono.
        -- apply valid_accs_snoc. split; [mono | cbn; mono].
      * kstep ltac:(now apply keeps_pop).
        intros [x top'] s3 Hs3 Hle3 E. cbn [fst snd] in E. subst top.
        apply valid_accs_snoc in Htop as [Htop' Hx].
        kstep ltac:(now apply keeps_assign_last).
        intros ns' s4 Hs4 Hle4 (r' & y & Heq & ->).
        rewrite Hr in Heq. apply app_inj_tail in Heq as [<- <-].
        subst nfa_stack. apply valid_frames_snoc in Hns as [Hr' _].
        kstep ltac:(now apply keeps_assign_last).
        intros cn' s5 Hs5 Hle5 (r' & y & Heq & ->).
        apply app_inj_tail in Heq as [<- <-].
        apply keeps_ret; [exact Hs5|]. split; cbn [fst snd].
        -- apply valid_frames_snoc. split; [|mono].
           eapply Forall_impl; [exact Hr'|]. intros f Hf.
           change (valid_accs (length (heap s5)) f).
           change (valid_accs (length (heap s)) f) in Hf. mono.
        -- apply valid_accs_snoc. split; [mono | mono].
    + apply keeps_ret; [exact Hs1|]. split; cbn [fst snd]; mono.
Qed.

(** ** One step of the scan and the whole scan *)

Lemma keeps_build_char (pattern : string) (i : nat) (char : ascii)
    (nfa_stack : frames) (curr_nfa : accumulators) s :
  scan_inv s ->
  valid_frames (length (heap s)) nfa_stack ->
  valid_accs (length (heap s)) curr_nfa ->
  keeps (build_char pattern i char nfa_stack curr_nfa) s valid_locals.
Proof.
  intros Hs Hns Hcn. unfold build_char.
  destruct (is_unary char).
  { destruct (length nfa_stack =? 0) eqn:Elen.
    { destruct Hns as [Hne _]. destruct nfa_stack; [now destruct Hne|].
      discriminate Elen. }
    eapply keeps_bind with
      (Q1 := fun p n => valid_nfa n (fst p) /\ valid_frames n (snd p)).
    - destruct (Ascii.eqb char "?"); [|destruct (Ascii.eqb char "*")].
      + kstep ltac:(now apply keeps_pop_top).
        intros [x ns'] s1 Hs1 Hle1 [Hx Hns']. cbn [fst snd] in Hx, Hns'.
        kstep ltac:(apply keeps_NFA_init_other; [exact Hs1|]).
        { apply Forall_singleton. exact Hx. }
        intros wrap s2 Hs2 Hle2 Hwrap.
        kstep ltac:(now apply keeps_bypass).
        intros _ s3 Hs3 Hle3 _.
        apply keeps_ret; [exact Hs3|]. split; cbn [fst snd]; mono.
      + kstep ltac:(now apply keeps_pop_top).
        intros [x ns'] s1 Hs1 Hle1 [Hx Hns']. cbn [fst snd] in Hx, Hns'.
        kstep ltac:(apply keeps_NFA_init_other; [exact Hs1|]).
        { apply Forall_singleton. exact Hx. }
        intros wrap s2 Hs2 Hle2 Hwrap.
        kstep ltac:(now apply keeps_bypass).
        intros _ s3 Hs3 Hle3 _.
        kstep ltac:(apply keeps_loop; [exact Hs3 | mono]).
        intros _ s4 Hs4 Hle4 _.
        apply keeps_ret; [exact Hs4|]. split; cbn [fst snd]; mono.
      + kstep ltac:(now apply keeps_pop_top).
        intros [x ns'] s1 Hs1 Hle1 [Hx Hns']. cbn [fst snd] in Hx, Hns'.
        kstep ltac:(now apply keeps_attr).
        intros wrap s2 Hs2 Hle2 Hwrap.
        kstep ltac:(now apply keeps_loop).
        intros _ s3 Hs3 Hle3 _.
        apply keeps_ret; [exact Hs3|]. split; cbn [fst snd]; mono.
    - intros [wrap ns'] s1 Hs1 Hle1 [Hwrap Hns']. cbn [fst snd] in Hwrap, Hns'.
      kstep ltac:(now apply keeps_append_top).
      intros ns'' s2 Hs2 Hle2 Hns''.
      apply keeps_ret; [exact Hs2|]. split; cbn [fst snd]; [exact Hns''|mono]. }
  destruct (Ascii.eqb char "|").
  { kstep ltac:(now apply keeps_index_last).
    intros top s1 Hs1 Hle1 _.
    destruct (length top =? 1).
    - kstep ltac:(apply keeps_finalize_nfa_stack; [exact Hs1 | mono | mono]).
      intros [ns' cn'] s2 Hs2 Hle2 [Hns' Hcn']. cbn [fst snd] in Hns', Hcn'.
      kstep ltac:(now apply keeps_index_last).
      intros cur s3 Hs3 Hle3 [rc ->].
      apply valid_accs_snoc in Hcn' as [Hrc Hcur].
      kstep ltac:(apply keeps_append_top; [exact Hs3 | mono | mono]).
      intros ns'' s4 Hs4 Hle4 Hns''.
      kstep ltac:(now apply keeps_assign_last).
      intros cn'' s5 Hs5 Hle5 (r' & y & Heq & ->).
      apply app_inj_tail in Heq as [<- <-].
      apply keeps_ret; [exact Hs5|]. split; cbn [fst snd]; [mono|].
      apply valid_accs_snoc. split; [mono | exact I].
    - apply keeps_ret; [exact Hs1|]. split; cbn [fst snd]; mono. }
  destruct (Ascii.eqb char "(").
  { apply keeps_ret; [exact Hs|]. split; cbn [fst snd].
    - apply valid_frames_push; [exact Hns | constructor].
    - apply valid_accs_snoc. split; [exact Hcn | exact I]. }
  destruct (Ascii.eqb char ")").
  { kstep ltac:(now apply keeps_finalize_nfa_stack).
    intros [ns' cn'] s1 Hs1 Hle1 [Hns' Hcn']. cbn [fst snd] in Hns', Hcn'.
    kstep ltac:(now apply keeps_pop).
    intros [dropped ns''] s2 Hs2 Hle2 E. cbn [fst snd] in E. subst ns'.
    apply valid_frames_snoc in Hns' as [Hns'' _].
    kstep ltac:(now apply keeps_index_last).
    intros top s3 Hs3 Hle3 [r Hr].
    assert (Hvf : valid_frames (length (heap s1)) ns'').
    { split; [|exact Hns'']. rewrite Hr. now destruct r. }
    kstep ltac:(now apply keeps_pop).
    intros [cur cn''] s4 Hs4 Hle4 E. cbn [fst snd] in E. subst cn'.
    apply valid_accs_snoc in Hcn' as [Hcn'' Hcur].
    kstep ltac:(apply keeps_append_top; [exact Hs4 | mono | mono]).
    intros ns''' s5 Hs5 Hle5 Hns'''.
    apply keeps_ret; [exact Hs5|]. split; cbn [fst snd]; [exact Hns'''|mono]. }
  kstep ltac:(now apply keeps_Char_init).
  intros char_state s1 Hs1 Hle1 Hcs.
  assert (Hchar : valid_opt (length (heap s1))
                    (Some (NFA_init char_state char_state))).
  { split; exact Hcs. }
  kstep ltac:(apply keeps_lift with
                (Q := fun _ _ => True); [now left | exact Hs1 | auto]).
  intros prev s2 Hs2 Hle2 _.
  destruct (Ascii.eqb prev "|").
  { kstep ltac:(apply keeps_append_top; [exact Hs2 | mono | mono]).
    intros ns' s3 Hs3 Hle3 Hns'.
    apply keeps_ret; [exact Hs3|]. split; cbn [fst snd]; [exact Hns'|mono]. }
  kstep ltac:(now apply keeps_index_last).
  intros top s3 Hs3 Hle3 [r ->].
  apply valid_frames_snoc in Hns as [Hr Htop].
  destruct top as [|t0 top0].
  { kstep ltac:(apply keeps_append_top; [exact Hs3 | | mono]).
    { apply (valid_frames_mono (length (heap s))); [lia|].
      apply valid_frames_snoc. now split. }
    intros ns' s4 Hs4 Hle4 Hns'.
    apply keeps_ret; [exact Hs4|]. split; cbn [fst snd]; [exact Hns'|mono]. }
  kstep ltac:(now apply keeps_index_last).
  intros last s4 Hs4 Hle4 [rt Hrt]. rewrite Hrt in Htop.
  apply valid_accs_snoc in Htop as [Hrt' Hlast].
  kstep ltac:(apply keeps_attr; [exact Hs4 | mono]).
  intros self s5 Hs5 Hle5 Hself.
  kstep ltac:(apply keeps_connect; [exact Hs5 | exact Hself | mono]).
  intros self' s6 Hs6 Hle6 Hself'.
  kstep ltac:(now apply keeps_assign_last).
  intros top' s7 Hs7 Hle7 (r' & y & Heq & ->).
  rewrite Hrt in Heq. apply app_inj_tail in Heq as [<- <-].
  kstep ltac:(now apply keeps_assign_last).
  intros ns' s8 Hs8 Hle8 (r' & y & Heq & ->).
  apply app_inj_tail in Heq as [<- <-].
  apply keeps_ret; [exact Hs8|]. split; cbn [fst snd]; [|mono].
  apply valid_frames_snoc. split.
  - eapply Forall_impl; [exact Hr|]. intros f Hf.
    change (valid_accs (length (heap s8)) f).
    change (valid_accs (length (heap s)) f) in Hf. mono.
  - apply valid_accs_snoc. split; [mono | cbn; mono].
Qed.

Lemma keeps_scan (pattern : string) (rest : list ascii) :
  forall (i : nat) (nfa_stack : frames) (curr_nfa : accumulators) s,
    scan_inv s ->
    valid_frames (length (heap s)) nfa_stack ->
    valid_accs (length (heap s)) curr_nfa ->
    keeps (scan pattern i rest nfa_stack curr_nfa) s valid_locals.
Proof.
  induction rest as [|char rest IH]; intros i nfa_stack curr_nfa s Hs Hns Hcn.
  - apply keeps_ret; [exact Hs|]. now split.
  - cbn [scan]. kstep ltac:(now apply keeps_build_char).
    intros [ns' cn'] s1 Hs1 Hle1 [Hns' Hcn']. now apply IH.
Qed.

(** ** The automaton that build_nfa returns *)

Lemma closed_add_edge (h : list State) (a b : ref) :
  closed h -> b < length h ->
  closed (alter (fun st => mkState (cls st) (state_id st)
                             (next_states st ++ [b])) a h).
Proof.
  unfold closed. intros Hcl Hb. rewrite length_alter.
  apply Forall_alter; [exact Hcl|]. intros x _ Hx. cbn.
  apply Forall_app. split; [exact Hx|]. now apply Forall_singleton.
Qed.

Lemma triple_build_from_counter (pattern : string) s :
  scan_inv s ->
  triple (build_from_counter pattern) s
    (fun nfa s' => automaton_shape nfa (heap s')).
Proof.
  intros Hs. unfold build_from_counter.
  eapply triple_bind.
  { apply keeps_scan; [exact Hs | |].
    - split; [discriminate | repeat constructor].
    - repeat constructor. }
  intros [ns cn] s1 (Hs1 & _ & Hns & Hcn). cbn [fst snd] in Hns, Hcn.
  eapply triple_bind; [now apply keeps_finalize_nfa_stack|].
  intros [ns' cn'] s2 (Hs2 & _ & _ & Hcn'). cbn [snd] in Hcn'.
  destruct Hs2 as (Hid & Hnodes & Hcl).
  unfold triple, bind, End_init, State_init, alloc, index_first, lift.
  destruct cn' as [|first rest]; [now left|].
  cbn [head ret]. apply Forall_cons in Hcn' as [Hfirst _].
  destruct first as [self|]; [|now right].
  destruct Hfirst as [Hstart Hend]. cbn.
  set (e := length (heap s2)) in *.
  unfold automaton_shape. cbn [start_state end_state].
  split; [exact Hstart|].
  split; [rewrite length_alter, length_app; cbn; lia|].
  split.
  { rewrite list_lookup_alter_ne by lia.
    rewrite lookup_app_r by (unfold e; lia).
    now replace (e - length (heap s2)) with 0 by (unfold e; lia). }
  split.
  { intros i st Hi Hlook. rewrite list_lookup_alter in Hlook.
    case_decide as Heq;
      [rewrite Heq in Hlook|]; rewrite lookup_app_l in Hlook by exact Hi.
    - destruct (heap s2 !! i) as [st0|] eqn:E; [|discriminate].
      injection Hlook as <-.
      exact (Forall_lookup_1 _ _ _ _ Hnodes E).
    - exact (Forall_lookup_1 _ _ _ _ Hnodes Hlook). }
  apply closed_add_edge; [now apply closed_alloc|].
  rewrite length_app. cbn. lia.
Qed.

Lemma build_outcome (c : Z) (pattern : string) :
  match build c pattern with
  | Ok (nfa, h) => automaton_shape nfa h
  | Raise e => builder_error e
  end.
Proof.
  unfold build, build_nfa, bind, set_id_count, boot. cbn [heap].
  assert (Hs : scan_inv (mkInterp 1 [])).
  { repeat split; cbn; [lia | constructor | constructor]. }
  pose proof (triple_build_from_counter pattern _ Hs) as H.
  unfold triple in H.
  destruct (build_from_counter pattern (mkInterp 1 [])) as [[nfa|e] s'];
    exact H.
Qed.

(** The guard of line 147 never fires: whatever the pattern, [build_nfa]
    raises no [SyntaxError]. *)
Lemma build_never_raises_SyntaxError (c : Z) (pattern : string) (i : nat) :
  build c pattern <> Raise (SyntaxError i).
Proof.
  intros E. pose proof (build_outcome c pattern) as H. rewrite E in H.
  destruct H; discriminate.
Qed.

(** The arena of a returned automaton holds no dangling reference. *)
Lemma build_nfa_closed (c : Z) (pattern : string) nfa h :
  build c pattern = Ok (nfa, h) ->
  closed h /\ start_state nfa < length h /\ end_state nfa < length h.
Proof.
  intros E. pose proof (build_outcome c pattern) as H. rewrite E in H.
  destruct H as (Hlt & Hlen & _ & _ & Hcl). repeat split; [exact Hcl | lia | lia].
Qed.

(** ** The entry node *)

(** The claim that the entry node is a [Start] with identity 0 fails: the
    entry of [build_nfa("a")] is the [Char] node, with identity 1. *)
Lemma entry_of_literal_pattern_is_a_Char :
  exists nfa h st,
    build 1 "a" = Ok (nfa, h)
    /\ h !! start_state nfa = Some st
    /\ cls st = Char false (Some "a"%char)
    /\ state_id st = 1%Z.
Proof.
  exists (mkNFA 0 1),
         [mkState (Char false (Some "a"%char)) 1 [1]; mkState End (-1) []],
         (mkState (Char false (Some "a"%char)) 1 [1]).
  repeat split; reflexivity.
Qed.

(** C6 (amended). [build_nfa] never makes a [Start] node.  The entry node
    of a returned automaton is a [Char] or a plain [Split] made during the
    scan, with a positive identity, and no node of the arena is a
    [Start]. *)
Theorem entry_is_Char_or_Split_never_Start :
  forall (c : Z) (pattern : string) (nfa : NFA) (h : list State),
    build c pattern = Ok (nfa, h) ->
    (exists st,
        h !! start_state nfa = Some st
        /\ scan_class (cls st)
        /\ (1 <= state_id st)%Z)
    /\ Forall (fun st => cls st <> Start) h.
Proof.
  intros c pattern nfa h E.
  pose proof (build_outcome c pattern) as H. rewrite E in H.
  destruct H as (Hlt & Hlen & Hend & Hnodes & _). split.
  - destruct (lookup_lt_is_Some_2 h (start_state nfa)) as [st Hst]; [lia|].
    exists st. destruct (Hnodes _ _ Hlt Hst) as [Hc Hi]. auto.
  - apply Forall_lookup. intros i st Hst.
    pose proof (lookup_lt_Some _ _ _ Hst) as Hi.
    destruct (decide (i = end_state nfa)) as [->|Hne].
    + rewrite Hend in Hst. injection Hst as <-. discriminate.
    + assert (Hi' : i < end_state nfa) by lia.
      destruct (Hnodes _ _ Hi' Hst) as [Hc _].
      intros Hs. rewrite Hs in Hc. exact Hc.
Qed.

Lemma entry_is_Char_or_Split_never_Start_witness :
  (exists st,
      chain_heap !! 0 = Some st
      /\ scan_class (cls st)
      /\ (1 <= state_id st)%Z)
  /\ Forall (fun st => cls st <> Start) chain_heap.
Proof.
  exact (entry_is_Char_or_Split_never_Start 1 "ab" (mkNFA 0 2) chain_heap
           eq_refl).
Defined.

(** ** The empty input *)

(** C10. When [build_nfa] succeeds, [match_pattern(pattern, "")] is
    [False]: the loop runs no step, the set of states is the entry alone,
    and the exit of the automaton is the [End] node, made after every other
    node and so not the entry. *)
Theorem match_empty_input_is_false :
  forall (depth : nat) (c : Z) (pattern : string) (nfa : NFA)
         (h : list State),
    build c pattern = Ok (nfa, h) ->
    run_match depth c pattern "" = Ok false
    /\ start_state nfa <> end_state nfa
    /\ h !! end_state nfa = Some (mkState End (-1) []).
Proof.
  intros depth c pattern nfa h E.
  pose proof (build_outcome c pattern) as H. rewrite E in H.
  destruct H as (Hlt & _ & Hend & _).
  split; [|split; [lia | exact Hend]].
  unfold build in E. unfold run_match, match_pattern, bind.
  destruct (build_nfa pattern (boot c)) as [[nfa'|e] s']; [|discriminate].
  injection E as -> _. cbn. unfold set_mem. cbn.
  destruct (Nat.eqb_spec (end_state nfa) (start_state nfa)); [lia|reflexivity].
Qed.

Lemma match_empty_input_is_false_witness :
  run_match 1000 1 "a?" "" = Ok false
  /\ 1 <> 3
  /\ optional_heap !! 3 = Some (mkState End (-1) []).
Proof.
  exact (match_empty_input_is_false 1000 1 "a?" (mkNFA 1 3) optional_heap
           eq_refl).
Defined.

(** ** What the matcher can raise *)

Lemma automaton_wf (nfa : NFA) (h : list State) :
  automaton_shape nfa h -> Forall wf_node h.
Proof.
  intros (Hlt & Hlen & Hend & Hnodes & _).
  apply Forall_lookup. intros i st Hst.
  pose proof (lookup_lt_Some _ _ _ Hst) as Hi.
  destruct (decide (i = end_state nfa)) as [->|Hne].
  - rewrite Hend in Hst. injection Hst as <-. exact I.
  - assert (Hi' : i < end_state nfa) by lia.
    destruct (Hnodes _ _ Hi' Hst) as [Hc _]. unfold wf_node.
    destruct (cls st); try exact I. exact Hc.
Qed.

Lemma Split_match_loop_sound (rec : ref -> result (list ref)) (h : list State) :
  (forall s, s < length h -> sound_step h (rec s)) ->
  forall states matches,
    in_arena h states -> in_arena h matches ->
    sound_step h (Split_match_loop rec h states matches).
Proof.
  intros Hrec. induction states as [|s rest IH]; intros matches Hst Hm.
  - exact Hm.
  - apply Forall_cons in Hst as [Hs Hrest]. cbn [Split_match_loop].
    destruct (type_is_End h s).
    + apply IH; [exact Hrest|]. apply Forall_app. split; [exact Hm|].
      now apply Forall_singleton.
    + specialize (Hrec s Hs). destruct (rec s) as [r|e]; [|exact Hrec].
      apply IH; [exact Hrest|]. apply Forall_app. now split.
Qed.

(** On a closed arena of well-formed nodes, [match] returns nodes of the
    arena or runs out of frames. *)
Lemma State_match_sound (h : list State) :
  closed h -> Forall wf_node h ->
  forall depth self char,
    self < length h -> sound_step h (State_match depth h self char).
Proof.
  intros Hcl Hwf. induction depth as [|depth IH]; intros self char Hself.
  - reflexivity.
  - cbn [State_match].
    destruct (lookup_lt_is_Some_2 h self Hself) as [st Hst]. rewrite Hst.
    pose proof (Forall_lookup_1 _ _ _ _ Hcl Hst) as Hnext. cbn beta in Hnext.
    pose proof (Forall_lookup_1 _ _ _ _ Hwf Hst) as Hnode. unfold wf_node in Hnode.
    destruct (cls st) as [ma mc| | |].
    + destruct ma; [exact Hnext|].
      destruct mc as [m|]; [|now destruct (Hnode eq_refl)].
      destruct (Ascii.eqb m char); [exact Hnext | constructor].
    + apply Split_match_loop_sound; [|exact Hnext|constructor].
      intros s Hs. now apply IH.
    + apply Split_match_loop_sound; [|exact Hnext|constructor].
      intros s Hs. now apply IH.
    + constructor.
Qed.

Lemma py_set_in_arena (h : list State) (l : list ref) :
  in_arena h l -> in_arena h (py_set l).
Proof.
  induction l as [|x l IH]; intros Hl; [exact Hl|].
  apply Forall_cons in Hl as [Hx Hl]. cbn [py_set].
  destruct (existsb (Nat.eqb x) l); [now apply IH|].
  apply Forall_cons. split; [exact Hx | now apply IH].
Qed.

Lemma extend_all_sound (depth : nat) (h : list State) (char : ascii) :
  closed h -> Forall wf_node h ->
  forall states next,
    in_arena h states -> in_arena h next ->
    sound_step h (extend_all depth h char states next).
Proof.
  intros Hcl Hwf. induction states as [|s rest IH]; intros next Hst Hn.
  - exact Hn.
  - apply Forall_cons in Hst as [Hs Hrest]. cbn [extend_all].
    pose proof (State_match_sound h Hcl Hwf depth s char Hs) as H.
    destruct (State_match depth h s char) as [r|e]; [|exact H].
    apply IH; [exact Hrest|]. apply Forall_app. now split.
Qed.

Lemma simulate_raises_only_RuntimeError (depth : nat) (h : list State)
    (end_ : ref) :
  closed h -> Forall wf_node h ->
  forall input states e,
    in_arena h states ->
    simulate depth h end_ input states = Raise e -> e = RuntimeError.
Proof.
  intros Hcl Hwf. induction input as [|char input IH]; intros states e Hst.
  - discriminate.
  - cbn [simulate]. destruct (length states =? 0); [discriminate|].
    pose proof (extend_all_sound depth h char Hcl Hwf states [] Hst
                  (Forall_nil_2 _)) as H.
    destruct (extend_all depth h char states []) as [next|e'].
    + apply IH. now apply py_set_in_arena.
    + intros E. injection E as <-. exact H.
Qed.

(** Once [build_nfa] has succeeded, the only exception that
    [match_pattern] can raise is the [RuntimeError] of the recursion
    limit. *)
Lemma match_raises_only_RuntimeError (depth : nat) (c : Z)
    (pattern input : string) (nfa : NFA) (h : list State) (e : exn) :
  build c pattern = Ok (nfa, h) ->
  run_match depth c pattern input = Raise e ->
  e = RuntimeError.
Proof.
  intros E. pose proof (build_outcome c pattern) as H. rewrite E in H.
  pose proof (automaton_wf _ _ H) as Hwf.
  destruct H as (Hlt & Hlen & _ & _ & Hcl).
  unfold build in E. unfold run_match, match_pattern, bind.
  destruct (build_nfa pattern (boot c)) as [[nfa'|e'] s']; [|discriminate].
  injection E as -> <-. cbn.
  apply simulate_raises_only_RuntimeError; [exact Hcl | exact Hwf |].
  apply Forall_singleton. lia.
Qed.

(** [match_pattern] never meets a reference to no object. *)
Lemma run_match_never_dangles (depth : nat) (c : Z) (pattern input : string) :
  run_match depth c pattern input <> Raise DanglingRef.
Proof.
  intros E. destruct (build c pattern) as [[nfa h]|e] eqn:Eb.
  - discriminate (match_raises_only_RuntimeError _ _ _ _ _ _ _ Eb E).
  - pose proof (build_outcome c pattern) as H. rewrite Eb in H.
    unfold build in Eb. unfold run_match, match_pattern, bind in E.
    destruct (build_nfa pattern (boot c)) as [[nfa'|e'] s']; [discriminate|].
    injection Eb as ->. cbn in E. injection E as ->.
    destruct H; discriminate.
Qed.

(** ** Building next to the objects of earlier builds *)

Lemma sim_ret {A} old (f : A -> A) (a : A) : sim old f (ret a) (ret (f a)).
Proof. intros s s' R. split; [reflexivity | exact R]. Qed.

Lemma sim_bind {A B} old (f : A -> A) (g : B -> B)
    (m m' : M A) (k k' : A -> M B) :
  sim old f m m' ->
  (forall a, sim old g (k a) (k' (f a))) ->
  sim old g (bind m k) (bind m' k').
Proof.
  intros Hm Hk s s' R. unfold bind. specialize (Hm s s' R).
  destruct (m s) as [[a|e] t], (m' s') as [[a'|e'] t'];
    cbn in Hm; destruct Hm as [E R']; try discriminate E.
  - injection E as ->. now apply Hk.
  - injection E as ->. split; [reflexivity | exact R'].
Qed.

Lemma sim_lift {A} old (f : A -> A) (o : option A) (e : exn) :
  sim old f (lift o e) (lift (f <$> o) e).
Proof. intros s s' R. destruct o; (split; [reflexivity | exact R]). Qed.

Lemma sim_State_init old (c : class) (sid : option Z) :
  sim old (Nat.add (length old)) (State_init c sid) (State_init c sid).
Proof.
  intros s s' [Hid Hheap].
  destruct sid as [i|]; cbn; rewrite Hheap, Hid, length_app, length_fmap;
    (split; [reflexivity|]); (split; [reflexivity|]); cbn;
    now rewrite fmap_app, app_assoc.
Qed.

Lemma sim_add_next_state old (a b : ref) :
  sim old id (add_next_state a b)
    (add_next_state (length old + a) (length old + b)).
Proof.
  intros s s' [Hid Hheap]. split; [reflexivity|]. split; [exact Hid|].
  cbn. rewrite Hheap, alter_app_r. f_equal.
  symmetry. apply list_fmap_alter. apply Forall_forall. intros st _.
  unfold shift_state. cbn. now rewrite fmap_app.
Qed.

Lemma py_pop_fmap {A} (f : A -> A) (l : list A) :
  py_pop (f <$> l) = pop_map f <$> py_pop l.
Proof.
  destruct l as [|x r] using rev_ind; [reflexivity|].
  rewrite fmap_snoc.
  rewrite (proj2 (py_pop_Some (r ++ [x]) x r) eq_refl).
  now rewrite (proj2 (py_pop_Some ((f <$> r) ++ [f x]) (f x) (f <$> r)) eq_refl).
Qed.

Lemma py_last_fmap {A} (f : A -> A) (l : list A) :
  py_last (f <$> l) = f <$> py_last l.
Proof.
  unfold py_last. rewrite py_pop_fmap. now destruct (py_pop l) as [[x r]|].
Qed.

Lemma py_set_last_fmap {A} (f : A -> A) (l : list A) (x : A) :
  py_set_last (f <$> l) (f x) = fmap (M:=list) f <$> py_set_last l x.
Proof.
  unfold py_set_last. rewrite py_pop_fmap.
  destruct (py_pop l) as [[y r]|]; [|reflexivity].
  cbn. now rewrite fmap_snoc.
Qed.

Lemma sim_index_last {A} old (f : A -> A) (l : list A) :
  sim old f (index_last l) (index_last (f <$> l)).
Proof. unfold index_last. rewrite py_last_fmap. apply sim_lift. Qed.

Lemma sim_pop {A} old (f : A -> A) (l : list A) :
  sim old (pop_map f) (pop l) (pop (f <$> l)).
Proof. unfold pop. rewrite py_pop_fmap. apply sim_lift. Qed.

Lemma sim_assign_last {A} old (f : A -> A) (l : list A) (x : A) :
  sim old (fmap (M:=list) f) (assign_last l x) (assign_last (f <$> l) (f x)).
Proof. unfold assign_last. rewrite py_set_last_fmap. apply sim_lift. Qed.

Lemma sim_index_first {A} old (f : A -> A) (l : list A) :
  sim old f (index_first l) (index_first (f <$> l)).
Proof.
  unfold index_first.
  destruct l as [|x l];
    [apply (sim_lift old f None) | apply (sim_lift old f (Some x))].
Qed.

Ltac sstep lem := eapply sim_bind; [lem|]; cbn beta.

Section Relocation.

Variable old : list State.

Let k : nat := length old.

Lemma sim_attr (x : option NFA) :
  sim old (shift_nfa k) (attr x) (attr (shift_opt k x)).
Proof. apply sim_lift. Qed.

Lemma sim_connect (self : NFA) (next_nfa : option NFA) :
  sim old (shift_nfa k) (connect self next_nfa)
    (connect (shift_nfa k self) (shift_opt k next_nfa)).
Proof.
  unfold connect. sstep ltac:(apply sim_attr). intros next.
  sstep ltac:(apply sim_add_next_state). intros _.
  apply (sim_ret old (shift_nfa k)).
Qed.

Lemma sim_loop (self : NFA) :
  sim old id (loop self) (loop (shift_nfa k self)).
Proof. apply sim_add_next_state. Qed.

Lemma sim_bypass (self : NFA) :
  sim old id (bypass self) (bypass (shift_nfa k self)).
Proof. apply sim_add_next_state. Qed.

Lemma sim_wrap (self : NFA) (other_nfa : option NFA) :
  sim old id (wrap self other_nfa)
    (wrap (shift_nfa k self) (shift_opt k other_nfa)).
Proof.
  unfold wrap. sstep ltac:(apply sim_attr). intros other.
  sstep ltac:(apply sim_add_next_state). intros _.
  apply sim_add_next_state.
Qed.

Lemma sim_wrap_all (self : NFA) (other_nfa : list (option NFA)) :
  sim old id (wrap_all self other_nfa)
    (wrap_all (shift_nfa k self) (shift_accs k other_nfa)).
Proof.
  induction other_nfa as [|x rest IH]; cbn [wrap_all shift_accs fmap list_fmap].
  - apply (sim_ret old id).
  - sstep ltac:(apply sim_wrap). intros _. exact IH.
Qed.

Lemma sim_NFA_init_other (other_nfa : list (option NFA)) :
  sim old (shift_nfa k) (NFA_init_other other_nfa)
    (NFA_init_other (shift_accs k other_nfa)).
Proof.
  unfold NFA_init_other, Split_init.
  sstep ltac:(apply sim_State_init). intros a.
  sstep ltac:(apply sim_State_init). intros b.
  sstep ltac:(apply (sim_wrap_all (mkNFA a b))). intros _.
  apply (sim_ret old (shift_nfa k)).
Qed.

Lemma sim_append_top (nfa_stack : frames) (x : option NFA) :
  sim old (shift_frames k) (append_top nfa_stack x)
    (append_top (shift_frames k nfa_stack) (shift_opt k x)).
Proof.
  unfold append_top. sstep ltac:(apply sim_index_last). intros top.
  replace (shift_accs k top ++ [shift_opt k x])
    with (shift_accs k (top ++ [x])) by apply fmap_snoc.
  apply (sim_assign_last old (shift_accs k)).
Qed.

Lemma sim_pop_top (nfa_stack : frames) :
  sim old (shift_popped k) (pop_top nfa_stack)
    (pop_top (shift_frames k nfa_stack)).
Proof.
  unfold pop_top. sstep ltac:(apply sim_index_last). intros top.
  sstep ltac:(apply sim_pop). intros [x top']. cbn [pop_map fst snd].
  sstep ltac:(apply (sim_assign_last old (shift_accs k))). intros ns'.
  apply (sim_ret old (shift_popped k) (x, ns')).
Qed.

Lemma sim_finalize_nfa_stack (nfa_stack : frames) (curr_nfa : accumulators) :
  sim old (shift_locals k) (finalize_nfa_stack nfa_stack curr_nfa)
    (finalize_nfa_stack (shift_frames k nfa_stack) (shift_accs k curr_nfa)).
Proof.
  unfold finalize_nfa_stack. sstep ltac:(apply sim_index_last). intros top.
  replace (length (shift_accs k top)) with (length top)
    by (symmetry; apply length_fmap).
  destruct (1 <? length top).
  - sstep ltac:(apply sim_NFA_init_other). intros wrap.
    sstep ltac:(apply sim_index_last). intros [self|]; cbn [shift_opt fmap option_fmap option_map].
    + sstep ltac:(apply (sim_connect self (Some wrap))). intros self'.
      sstep ltac:(apply (sim_assign_last old (shift_opt k) curr_nfa (Some self'))).
      intros cn'. apply (sim_ret old (shift_locals k) (nfa_stack, cn')).
    + sstep ltac:(apply (sim_assign_last old (shift_opt k) curr_nfa (Some wrap))).
      intros cn'. apply (sim_ret old (shift_locals k) (nfa_stack, cn')).
  - destruct (length top =? 1).
    + sstep ltac:(apply sim_index_last). intros [self|]; cbn [shift_opt fmap option_fmap option_map].
      * sstep ltac:(apply sim_pop). intros [x top']. cbn [pop_map fst snd].
        sstep ltac:(apply (sim_assign_last old (shift_accs k))). intros ns'.
        sstep ltac:(apply (sim_connect self x)). intros self'.
        sstep ltac:(apply (sim_assign_last old (shift_opt k) curr_nfa (Some self'))).
        intros cn'. apply (sim_ret old (shift_locals k) (ns', cn')).
      * sstep ltac:(apply sim_pop). intros [x top']. cbn [pop_map fst snd].
        sstep ltac:(apply (sim_assign_last old (shift_accs k))). intros ns'.
        sstep ltac:(apply (sim_assign_last old (shift_opt k) curr_nfa x)).
        intros cn'. apply (sim_ret old (shift_locals k) (ns', cn')).
    + apply (sim_ret old (shift_locals k) (nfa_stack, curr_nfa)).
Qed.

Lemma sim_lift_same {A} (o : option A) (e : exn) :
  sim old id (lift o e) (lift o e).
Proof. intros s s' R. destruct o; (split; [reflexivity | exact R]). Qed.

Lemma sim_build_char (pattern : string) (i : nat) (char : ascii)
    (nfa_stack : frames) (curr_nfa : accumulators) :
  sim old (shift_locals k)
    (build_char pattern i char nfa_stack curr_nfa)
    (build_char pattern i char (shift_frames k nfa_stack)
       (shift_accs k curr_nfa)).
Proof.
  unfold build_char.
  replace (length (shift_frames k nfa_stack)) with (length nfa_stack)
    by (symmetry; apply length_fmap).
  destruct (is_unary char).
  { destruct (length nfa_stack =? 0).
    { intros s s' R. split; [reflexivity | exact R]. }
    eapply sim_bind with (f := shift_wrapped k).
    - destruct (Ascii.eqb char "?"); [|destruct (Ascii.eqb char "*")].
      + sstep ltac:(apply sim_pop_top). intros [x ns1].
        cbn [shift_popped fst snd].
        sstep ltac:(apply (sim_NFA_init_other [x])). intros wrap.
        sstep ltac:(apply sim_bypass). intros _.
        apply (sim_ret old (shift_wrapped k) (wrap, ns1)).
      + sstep ltac:(apply sim_pop_top). intros [x ns1].
        cbn [shift_popped fst snd].
        sstep ltac:(apply (sim_NFA_init_other [x])). intros wrap.
        sstep ltac:(apply sim_bypass). intros _.
        sstep ltac:(apply sim_loop). intros _.
        apply (sim_ret old (shift_wrapped k) (wrap, ns1)).
      + sstep ltac:(apply sim_pop_top). intros [x ns1].
        cbn [shift_popped fst snd].
        sstep ltac:(apply sim_attr). intros wrap.
        sstep ltac:(apply sim_loop). intros _.
        apply (sim_ret old (shift_wrapped k) (wrap, ns1)).
    - intros [wrap ns1]. cbn [shift_wrapped fst snd].
      sstep ltac:(apply (sim_append_top ns1 (Some wrap))). intros ns2.
      apply (sim_ret old (shift_locals k) (ns2, curr_nfa)). }
  destruct (Ascii.eqb char "|").
  { sstep ltac:(apply sim_index_last). intros top.
    replace (length (shift_accs k top)) with (length top)
      by (symmetry; apply length_fmap).
    destruct (length top =? 1).
    - sstep ltac:(apply sim_finalize_nfa_stack). intros [ns1 cn1].
      cbn [shift_locals fst snd].
      sstep ltac:(apply sim_index_last). intros cur.
      sstep ltac:(apply sim_append_top). intros ns2.
      sstep ltac:(apply (sim_assign_last old (shift_opt k) cn1 None)).
      intros cn2. apply (sim_ret old (shift_locals k) (ns2, cn2)).
    - apply (sim_ret old (shift_locals k) (nfa_stack, curr_nfa)). }
  destruct (Ascii.eqb char "(").
  { replace (shift_frames k nfa_stack ++ [[]])
      with (shift_frames k (nfa_stack ++ [[]]))
      by (unfold shift_frames; now rewrite fmap_snoc).
    replace (shift_accs k curr_nfa ++ [None])
      with (shift_accs k (curr_nfa ++ [None]))
      by (unfold shift_accs; now rewrite fmap_snoc).
    apply (sim_ret old (shift_locals k) (nfa_stack ++ [[]], curr_nfa ++ [None])). }
  destruct (Ascii.eqb char ")").
  { sstep ltac:(apply sim_finalize_nfa_stack). intros [ns1 cn1].
    cbn [shift_locals fst snd].
    sstep ltac:(apply sim_pop). intros [dropped ns2]. cbn [pop_map fst snd].
    sstep ltac:(apply sim_index_last). intros _.
    sstep ltac:(apply sim_pop). intros [cur cn2]. cbn [pop_map fst snd].
    sstep ltac:(apply sim_append_top). intros ns3.
    apply (sim_ret old (shift_locals k) (ns3, cn2)). }
  unfold Char_init.
  eapply sim_bind with (f := Nat.add k).
  { destruct (Ascii.eqb char "."); apply sim_State_init. }
  intros char_state. cbn beta.
  sstep ltac:(apply sim_lift_same). intros prev. unfold id.
  destruct (Ascii.eqb prev "|").
  { sstep ltac:(apply (sim_append_top nfa_stack
                         (Some (NFA_init char_state char_state)))).
    intros ns1. apply (sim_ret old (shift_locals k) (ns1, curr_nfa)). }
  sstep ltac:(apply sim_index_last). intros top.
  destruct top as [|t0 top0].
  { change (shift_accs k []) with (@nil (option NFA)). cbv iota.
    sstep ltac:(apply (sim_append_top nfa_stack
                         (Some (NFA_init char_state char_state)))).
    intros ns1. apply (sim_ret old (shift_locals k) (ns1, curr_nfa)). }
  change (shift_accs k (t0 :: top0))
    with (shift_opt k t0 :: shift_accs k top0). cbv iota.
  sstep ltac:(apply (sim_index_last old (shift_opt k) (t0 :: top0))).
  intros last.
  sstep ltac:(apply sim_attr). intros self.
  sstep ltac:(apply (sim_connect self
                       (Some (NFA_init char_state char_state)))).
  intros self1.
  sstep ltac:(apply (sim_assign_last old (shift_opt k) (t0 :: top0)
                       (Some self1))).
  intros top1.
  sstep ltac:(apply (sim_assign_last old (shift_accs k) nfa_stack top1)).
  intros ns1. apply (sim_ret old (shift_locals k) (ns1, curr_nfa)).
Qed.

Lemma sim_scan (pattern : string) (rest : list ascii) :
  forall (i : nat) (nfa_stack : frames) (curr_nfa : accumulators),
    sim old (shift_locals k)
      (scan pattern i rest nfa_stack curr_nfa)
      (scan pattern i rest (shift_frames k nfa_stack) (shift_accs k curr_nfa)).
Proof.
  induction rest as [|char rest IH]; intros i nfa_stack curr_nfa; cbn [scan].
  - apply (sim_ret old (shift_locals k) (nfa_stack, curr_nfa)).
  - sstep ltac:(apply sim_build_char). intros [ns1 cn1].
    cbn [shift_locals fst snd]. apply IH.
Qed.

Lemma sim_build_from_counter (pattern : string) :
  sim old (shift_nfa k) (build_from_counter pattern)
    (build_from_counter pattern).
Proof.
  unfold build_from_counter.
  sstep ltac:(apply (sim_scan pattern _ 0 [[]] [None])). intros [ns cn].
  cbn [shift_locals fst snd].
  sstep ltac:(apply sim_finalize_nfa_stack). intros [ns1 cn1].
  cbn [shift_locals fst snd]. unfold End_init.
  sstep ltac:(apply sim_State_init). intros end_.
  sstep ltac:(apply sim_index_first). intros first.
  sstep ltac:(apply sim_attr). intros self.
  apply (sim_connect self (Some (NFA_init end_ end_))).
Qed.

End Relocation.

Lemma build_nfa_relocates (s : Interp) (c : Z) (pattern : string) :
  fst (build_nfa pattern s)
  = map_result (shift_nfa (length (heap s))) (fst (build_nfa pattern (boot c)))
  /\ relocated (heap s) (snd (build_nfa pattern (boot c)))
       (snd (build_nfa pattern s)).
Proof.
  unfold build_nfa, bind, set_id_count, boot. cbn [heap].
  apply (sim_build_from_counter (heap s) pattern).
  split; [reflexivity|]. cbn. now rewrite app_nil_r.
Qed.

(** C9. [build_nfa] gives the same automaton whatever was built before.
    In any interpreter state [s], with whatever counter and whatever
    objects earlier builds left, the call returns the automaton that it
    returns in a state with no object and any counter [c], moved past the
    objects of [s]: the new nodes are, in order of creation, the same
    classes with the same identities, every edge leads to the
    corresponding node, the earlier objects are untouched, and the counter
    left behind is the same.  Line 139 resets the counter before the first
    node is made. *)
Theorem build_nfa_forgets_earlier_builds :
  forall (s : Interp) (c : Z) (pattern : string),
    fst (build_nfa pattern s)
    = map_result (shift_nfa (length (heap s)))
        (fst (build_nfa pattern (boot c)))
    /\ heap (snd (build_nfa pattern s))
       = heap s ++ (shift_state (length (heap s))
                      <$> heap (snd (build_nfa pattern (boot c))))
    /\ id_count (snd (build_nfa pattern s))
       = id_count (snd (build_nfa pattern (boot c)))
    /\ build (id_count s) pattern = build c pattern.
Proof.
  intros s c pattern.
  destruct (build_nfa_relocates s c pattern) as [Hv [Hid Hh]].
  repeat split; [exact Hv | exact Hh | exact Hid].
Qed.

(** ** Matching next to the objects of earlier builds *)

Section MatchRelocation.

Variable old : list State.
Variable h : list State.

Let k : nat := length old.
Let h' : list State := old ++ (shift_state k <$> h).

Lemma lookup_relocated (r : ref) :
  h' !! (k + r) = shift_state k <$> h !! r.
Proof.
  unfold h', k. rewrite lookup_app_r by lia.
  replace (length old + r - length old) with r by lia.
  apply list_lookup_fmap.
Qed.

Lemma type_is_End_relocated (r : ref) :
  type_is_End h' (k + r) = type_is_End h r.
Proof.
  unfold type_is_End. rewrite lookup_relocated.
  now destruct (h !! r) as [st|].
Qed.

Lemma Split_match_loop_relocated (rec rec' : ref -> result (list ref)) :
  (forall s, rec' (k + s) = map_result (fmap (Nat.add k)) (rec s)) ->
  forall states matches,
    Split_match_loop rec' h' (Nat.add k <$> states) (Nat.add k <$> matches)
    = map_result (fmap (Nat.add k)) (Split_match_loop rec h states matches).
Proof.
  intros Hrec. induction states as [|s rest IH]; intros matches.
  - reflexivity.
  - cbn [Split_match_loop fmap list_fmap].
    rewrite type_is_End_relocated. destruct (type_is_End h s).
    + rewrite <- IH. now rewrite fmap_snoc.
    + rewrite Hrec. destruct (rec s) as [r|e]; [|reflexivity].
      cbn [map_result]. rewrite <- IH. now rewrite fmap_app.
Qed.

Lemma State_match_relocated (depth : nat) :
  forall (self : ref) (char : ascii),
    State_match depth h' (k + self) char
    = map_result (fmap (Nat.add k)) (State_match depth h self char).
Proof.
  induction depth as [|depth IH]; intros self char; [reflexivity|].
  cbn [State_match]. rewrite lookup_relocated.
  destruct (h !! self) as [st|]; [|reflexivity]. cbn.
  destruct (cls st) as [ma mc| | |].
  - destruct ma; [reflexivity|]. destruct mc as [m|]; [|reflexivity].
    now destruct (Ascii.eqb m char).
  - apply (Split_match_loop_relocated _ _ (fun s => IH s char) _ []).
  - apply (Split_match_loop_relocated _ _ (fun s => IH s char) _ []).
  - reflexivity.
Qed.

Lemma extend_all_relocated (depth : nat) (char : ascii) :
  forall states next,
    extend_all depth h' char (Nat.add k <$> states) (Nat.add k <$> next)
    = map_result (fmap (Nat.add k)) (extend_all depth h char states next).
Proof.
  induction states as [|s rest IH]; intros next; [reflexivity|].
  cbn [extend_all fmap list_fmap]. rewrite State_match_relocated.
  destruct (State_match depth h s char) as [r|e]; [|reflexivity].
  cbn [map_result]. rewrite <- IH. now rewrite fmap_app.
Qed.

Lemma set_mem_relocated (x : ref) (l : list ref) :
  set_mem (k + x) (Nat.add k <$> l) = set_mem x l.
Proof.
  unfold set_mem. induction l as [|y l IH]; [reflexivity|].
  cbn [existsb fmap list_fmap]. rewrite IH. f_equal.
  destruct (Nat.eqb_spec x y), (Nat.eqb_spec (k + x) (k + y)); (reflexivity || lia).
Qed.

Lemma py_set_relocated (l : list ref) :
  py_set (Nat.add k <$> l) = Nat.add k <$> py_set l.
Proof.
  induction l as [|x l IH]; [reflexivity|].
  cbn [py_set fmap list_fmap].
  change (existsb (Nat.eqb (k + x)) (Nat.add k <$> l))
    with (set_mem (k + x) (Nat.add k <$> l)).
  rewrite set_mem_relocated. unfold set_mem.
  destruct (existsb (Nat.eqb x) l); [exact IH|]. cbn. now rewrite IH.
Qed.

Lemma simulate_relocated (depth : nat) (end_ : ref) :
  forall input states,
    simulate depth h' (k + end_) input (Nat.add k <$> states)
    = simulate depth h end_ input states.
Proof.
  induction input as [|char input IH]; intros states; cbn [simulate].
  - now rewrite set_mem_relocated.
  - rewrite length_fmap. destruct (length states =? 0); [reflexivity|].
    pose proof (extend_all_relocated depth char states []) as E.
    change (Nat.add k <$> []) with (@nil nat) in E. rewrite E.
    destruct (extend_all depth h char states []) as [next|e]; [|reflexivity].
    cbn [map_result]. rewrite py_set_relocated. apply IH.
Qed.

End MatchRelocation.

(** X5. [match_pattern] returns the same value in every interpreter state:
    [run_match] is that value. *)
Lemma match_pattern_in_any_state (s : Interp) (depth : nat) (c : Z)
    (pattern input : string) :
  fst (match_pattern depth pattern input s) = run_match depth c pattern input.
Proof.
  unfold run_match, match_pattern, bind.
  destruct (build_nfa_relocates s c pattern) as [Hv [_ Hh]].
  destruct (build_nfa pattern (boot c)) as [[nfa|e] t],
           (build_nfa pattern s) as [[nfa'|e'] t'];
    cbn in Hv; try discriminate Hv; injection Hv as ->; [|reflexivity].
  cbn in *. rewrite Hh.
  apply (simulate_relocated (heap s) (heap t) depth (end_state nfa)
           _ [start_state nfa]).
Qed.

(** ** The order of iteration over a set does not matter *)

Lemma set_mem_In (x : ref) (l : list ref) : set_mem x l = true <-> In x l.
Proof.
  unfold set_mem. rewrite existsb_exists. split.
  - intros (y & Hy & E). apply Nat.eqb_eq in E. now subst.
  - intros H. exists x. split; [exact H | apply Nat.eqb_refl].
Qed.

Lemma py_set_In (x : ref) (l : list ref) : In x (py_set l) <-> In x l.
Proof.
  induction l as [|y l IH]; [reflexivity|]. cbn [py_set].
  destruct (existsb (Nat.eqb y) l) eqn:E.
  - rewrite IH. split; [now right|]. intros [->|H]; [|exact H].
    now apply set_mem_In.
  - cbn [In]. now rewrite IH.
Qed.

Lemma extend_all_spec (depth : nat) (h : list State) (char : ascii) :
  forall states next,
    match extend_all depth h char states next with
    | Ok r =>
        (forall s, In s states -> exists l, State_match depth h s char = Ok l)
        /\ (forall x, In x r <->
              In x next \/
              exists s l, In s states
                          /\ State_match depth h s char = Ok l /\ In x l)
    | Raise _ =>
        exists s e, In s states /\ State_match depth h s char = Raise e
    end.
Proof.
  induction states as [|s rest IH]; intros next; cbn [extend_all].
  - split; [intros s []|]. intros x. split; [now left|].
    intros [H|(s & l & [] & _)]. exact H.
  - destruct (State_match depth h s char) as [r|e] eqn:E.
    + specialize (IH (next ++ r)).
      destruct (extend_all depth h char rest (next ++ r)) as [out|e'].
      * destruct IH as [Hall Hin]. split.
        -- intros s' [<-|H]; [now exists r | now apply Hall].
        -- intros x. rewrite Hin, in_app_iff. split.
           ++ intros [[H|H]|(s' & l & Hs' & El & Hx)].
              ** now left.
              ** right. exists s, r. cbn. auto.
              ** right. exists s', l. cbn. auto.
           ++ intros [H|(s' & l & [<-|Hs'] & El & Hx)].
              ** now left; left.
              ** left; right. rewrite E in El. now injection El as <-.
              ** right. now exists s', l.
      * destruct IH as (s' & e0 & Hs' & E'). exists s', e0. cbn. auto.
    + exists s, e. cbn. auto.
Qed.

(** X6. The order in which [states] lists the set changes neither the value
    that [match_pattern] returns nor whether it raises. *)
Lemma simulate_order_irrelevant (depth : nat) (h : list State) (end_ : ref) :
  forall input states states',
    same_set states states' ->
    same_outcome (simulate depth h end_ input states)
                 (simulate depth h end_ input states').
Proof.
  induction input as [|char input IH]; intros states states' Hsame;
    cbn [simulate].
  - cbn. apply eq_true_iff_eq. rewrite !set_mem_In. apply Hsame.
  - destruct states as [|s0 rest], states' as [|s0' rest'].
    + reflexivity.
    + destruct (proj2 (Hsame s0') (or_introl eq_refl)).
    + destruct (proj1 (Hsame s0) (or_introl eq_refl)).
    + change (length (s0 :: rest) =? 0) with false.
      change (length (s0' :: rest') =? 0) with false. cbv iota.
      pose proof (extend_all_spec depth h char (s0 :: rest) []) as H.
      pose proof (extend_all_spec depth h char (s0' :: rest') []) as H'.
      destruct (extend_all depth h char (s0 :: rest) []) as [r|e],
               (extend_all depth h char (s0' :: rest') []) as [r'|e'].
      * apply IH. intros x. rewrite !py_set_In.
        destruct H as [_ H], H' as [_ H']. rewrite H, H'.
        split; (intros [[]|(s & l & Hs & Hl)]; right; exists s, l;
                split; [now apply Hsame | exact Hl]).
      * destruct H as [H _], H' as (s & e0 & Hs & E).
        destruct (H s (proj2 (Hsame s) Hs)) as [l El]. congruence.
      * destruct H' as [H' _], H as (s & e0 & Hs & E).
        destruct (H' s (proj1 (Hsame s) Hs)) as [l El]. congruence.
      * exact I.
Qed.

(** * Further properties of the program *)

(** ** What build_nfa can do *)

(** X1. [build_nfa] returns an automaton or raises [IndexError] or
    [AttributeError]: the [SyntaxError] of line 148 is raised for no
    pattern, its guard [len(nfa_stack) == 0] never holds. *)
Theorem build_nfa_returns_or_raises_two_errors :
  forall (c : Z) (pattern : string),
    (exists nfa h, build c pattern = Ok (nfa, h))
    \/ build c pattern = Raise IndexError
    \/ build c pattern = Raise AttributeError.
Proof.
  intros c pattern. pose proof (build_outcome c pattern) as H.
  destruct (build c pattern) as [[nfa h]|e].
  - left. now exists nfa, h.
  - right. destruct H as [-> | ->]; auto.
Qed.

(** X2. In a returned automaton every edge leads to a node of the automaton,
    the exit is the last node created, it is an [End] with no outgoing
    edge, and it is the only [End]. *)
Theorem returned_automaton_is_closed :
  forall (c : Z) (pattern : string) (nfa : NFA) (h : list State),
    build c pattern = Ok (nfa, h) ->
    closed h
    /\ length h = S (end_state nfa)
    /\ h !! end_state nfa = Some (mkState End (-1) [])
    /\ (forall i st, h !! i = Some st -> cls st = End -> i = end_state nfa).
Proof.
  intros c pattern nfa h E.
  pose proof (build_outcome c pattern) as H. rewrite E in H.
  destruct H as (_ & Hlen & Hend & Hnodes & Hcl).
  repeat split; [exact Hcl | exact Hlen | exact Hend |].
  intros i st Hst Hc. pose proof (lookup_lt_Some _ _ _ Hst) as Hi.
  destruct (decide (i = end_state nfa)) as [->|Hne]; [reflexivity|].
  assert (Hi' : i < end_state nfa) by lia.
  destruct (Hnodes _ _ Hi' Hst) as [Hsc _]. rewrite Hc in Hsc. destruct Hsc.
Qed.

Lemma returned_automaton_is_closed_witness :
  closed optional_heap
  /\ length optional_heap = 4
  /\ optional_heap !! 3 = Some (mkState End (-1) [])
  /\ (forall i st, optional_heap !! i = Some st -> cls st = End -> i = 3).
Proof.
  exact (returned_automaton_is_closed 1 "a?" (mkNFA 1 3) optional_heap eq_refl).
Defined.

(** X3. A pattern that begins with a quantifier or with [")"] raises
    [IndexError], whatever follows: the quantifier pops from the empty
    operand list of the only frame, and [")"] pops the only frame and then
    reads [nfa_stack[-1]]. *)
Theorem leading_quantifier_or_paren_raises_IndexError :
  forall (c : Z) (rest : string),
    build c (String "?" rest) = Raise IndexError
    /\ build c (String "*" rest) = Raise IndexError
    /\ build c (String "+" rest) = Raise IndexError
    /\ build c (String ")" rest) = Raise IndexError.
Proof. intros c rest. repeat split; reflexivity. Qed.

(** ** What match_pattern can do *)

(** X4. [match_pattern] raises what [build_nfa] raises; once [build_nfa] has
    returned, it returns a boolean or raises the [RuntimeError] of the
    recursion limit, and nothing else. *)
Theorem match_pattern_outcomes :
  forall (depth : nat) (c : Z) (pattern input : string),
    match build c pattern with
    | Ok _ =>
        (exists b, run_match depth c pattern input = Ok b)
        \/ run_match depth c pattern input = Raise RuntimeError
    | Raise e => run_match depth c pattern input = Raise e
    end.
Proof.
  intros depth c pattern input.
  destruct (build c pattern) as [[nfa h]|e] eqn:E.
  - destruct (run_match depth c pattern input) as [b|e] eqn:Er.
    + left. now exists b.
    + right. f_equal.
      exact (match_raises_only_RuntimeError _ _ _ _ _ _ _ E Er).
  - unfold build in E. unfold run_match, match_pattern, bind.
    destruct (build_nfa pattern (boot c)) as [[nfa'|e'] s']; [discriminate|].
    now injection E as ->.
Qed.

Lemma simulate_order_irrelevant_witness :
  same_outcome (simulate 2 optional_heap 3 ["a"%char] [1; 2])
               (simulate 2 optional_heap 3 ["a"%char] [2; 1]).
Proof.
  apply (simulate_order_irrelevant 2 optional_heap 3 ["a"%char] [1; 2] [2; 1]).
  intros x. cbn. tauto.
Defined.

(** ** One literal under one operator *)

Lemma is_literal_facts char :
  is_literal char = true ->
  is_unary char = false /\ Ascii.eqb char "|" = false
  /\ Ascii.eqb char "(" = false /\ Ascii.eqb char ")" = false.
Proof.
  unfold is_literal. rewrite !andb_true_iff, !negb_true_iff. tauto.
Qed.

Lemma Char_init_class char : Char_init char = State_init (Char_class char) None.
Proof. unfold Char_init, Char_class. now destruct (Ascii.eqb char "."). Qed.

Lemma Char_class_step (depth : nat) (h : list State) (self : nat)
    (c : ascii) (sid : Z) (nexts : list nat) (x : ascii) :
  h !! self = Some (mkState (Char_class c) sid nexts) ->
  State_match (S depth) h self x = Ok (if accepts c x then nexts else []).
Proof.
  intros Hself. cbn [State_match]. rewrite Hself. unfold Char_class, accepts.
  cbn [cls next_states]. destruct (Ascii.eqb c "."); [reflexivity|].
  cbn [cls orb]. now destruct (Ascii.eqb c x).
Qed.

Lemma type_is_End_Char_class (h : list State) (r : nat) (c : ascii) sid nexts :
  h !! r = Some (mkState (Char_class c) sid nexts) -> type_is_End h r = false.
Proof.
  intros H. unfold type_is_End. rewrite H. unfold Char_class. cbn.
  now destruct (Ascii.eqb c ".").
Qed.

Lemma simulate_no_state (depth : nat) (h : list State) (end_ : nat)
    (input : list ascii) :
  simulate depth h end_ input [] = Ok false.
Proof. now destruct input. Qed.

Lemma build_literal_star (c0 : Z) (c : ascii) :
  is_literal c = true ->
  build c0 (String c "*") = Ok (mkNFA 1 3, star_arena c).
Proof.
  intros H. destruct (is_literal_facts c H) as (Hu & Hb & Ho & Hc).
  unfold build, build_nfa, build_from_counter.
  cbn [list_ascii_of_string scan].
  unfold build_char at 1. rewrite Hu, Hb, Ho, Hc, Char_init_class.
  reflexivity.
Qed.

Lemma star_arena_never_returns (c x : ascii) (depth : nat) :
  State_match depth (star_arena c) 1 x = Raise RuntimeError
  /\ State_match (S depth) (star_arena c) 1 x = Raise RuntimeError.
Proof.
  induction depth as [|d [IH0 IH1]].
  - split; [reflexivity|].
    change (State_match 1 (star_arena c) 1 x)
      with (Split_match_loop (fun s => State_match 0 (star_arena c) s x)
              (star_arena c) [0; 2] []).
    cbn [Split_match_loop].
    now rewrite (type_is_End_Char_class (star_arena c) 0 c 1 [2] eq_refl).
  - split; [exact IH1|].
    change (State_match (S (S d)) (star_arena c) 1 x)
      with (Split_match_loop (fun s => State_match (S d) (star_arena c) s x)
              (star_arena c) [0; 2] []).
    cbn [Split_match_loop].
    rewrite (type_is_End_Char_class (star_arena c) 0 c 1 [2] eq_refl).
    rewrite (Char_class_step d (star_arena c) 0 c 1 [2] x eq_refl).
    change (type_is_End (star_arena c) 2) with false. cbv iota.
    change (State_match (S d) (star_arena c) 2 x)
      with (Split_match_loop (fun s => State_match d (star_arena c) s x)
              (star_arena c) [1; 3] []).
    cbn [Split_match_loop].
    change (type_is_End (star_arena c) 1) with false. cbv iota.
    now rewrite IH0.
Qed.

(** X15. For a literal [c], [match_pattern("c*", input)] returns for no
    non-empty input: the first symbol already takes [Split.match] round the
    cycle of the two [Split] nodes until the recursion limit, whatever the
    limit. *)
Theorem literal_star_never_matches_a_symbol :
  forall (depth : nat) (c0 : Z) (c x : ascii) (rest : string),
    is_literal c = true ->
    run_match depth c0 (String c "*") (String x rest) = Raise RuntimeError.
Proof.
  intros depth c0 c x rest H.
  pose proof (build_literal_star c0 c H) as Hb.
  unfold build in Hb. unfold run_match, match_pattern, bind.
  destruct (build_nfa (String c "*") (boot c0)) as [[nfa|e] s]; [|discriminate].
  injection Hb as -> Hh. cbn [get_heap fst snd start_state end_state].
  rewrite Hh. cbn [list_ascii_of_string py_set existsb simulate length Nat.eqb extend_all].
  destruct (star_arena_never_returns c x depth) as [-> _]. reflexivity.
Qed.

Lemma literal_star_never_matches_a_symbol_witness :
  run_match 1000 1 "a*" "ab" = Raise RuntimeError.
Proof.
  exact (literal_star_never_matches_a_symbol 1000 1 "a" "a" "b" eq_refl).
Defined.

Lemma build_literal_plus (c0 : Z) (c : ascii) :
  is_literal c = true ->
  build c0 (String c "+") = Ok (mkNFA 0 1, plus_arena c).
Proof.
  intros H. destruct (is_literal_facts c H) as (Hu & Hb & Ho & Hc).
  unfold build, build_nfa, build_from_counter.
  cbn [list_ascii_of_string scan].
  unfold build_char at 1. rewrite Hu, Hb, Ho, Hc, Char_init_class.
  reflexivity.
Qed.

Lemma plus_arena_step (depth : nat) (c x : ascii) (states : list nat) :
  states = [0] \/ states = [0; 1] ->
  extend_all (S depth) (plus_arena c) x states []
  = Ok (if accepts c x then [0; 1] else []).
Proof.
  intros [-> | ->]; cbn [extend_all];
    rewrite (Char_class_step depth (plus_arena c) 0 c 1 [0; 1] x eq_refl);
    [|change (State_match (S depth) (plus_arena c) 1 x) with (Ok (A:=list nat) [])];
    now destruct (accepts c x).
Qed.

Lemma plus_arena_loop (depth : nat) (c : ascii) (input : list ascii) :
  simulate (S depth) (plus_arena c) 1 input [0; 1]
  = Ok (forallb (accepts c) input).
Proof.
  induction input as [|x input IH]; [reflexivity|].
  cbn [simulate length Nat.eqb forallb].
  rewrite plus_arena_step by now right.
  destruct (accepts c x); [exact IH | apply simulate_no_state].
Qed.

(** X12. For a literal [c], [match_pattern("c+", input)] is [True] exactly
    when the input is one or more symbols that [c] accepts. *)
Theorem literal_plus_matches_repetitions :
  forall (depth : nat) (c0 : Z) (c : ascii) (input : string),
    is_literal c = true ->
    run_match (S depth) c0 (String c "+") input
    = Ok (repeats c (list_ascii_of_string input)).
Proof.
  intros depth c0 c input H.
  pose proof (build_literal_plus c0 c H) as Hb.
  unfold build in Hb. unfold run_match, match_pattern, bind.
  destruct (build_nfa (String c "+") (boot c0)) as [[nfa|e] s]; [|discriminate].
  injection Hb as -> Hh. cbn [get_heap fst snd start_state end_state].
  rewrite Hh. change (py_set [0]) with [0].
  destruct (list_ascii_of_string input) as [|x rest]; [reflexivity|].
  cbn [simulate length Nat.eqb repeats forallb].
  rewrite plus_arena_step by now left.
  destruct (accepts c x); [apply plus_arena_loop | apply simulate_no_state].
Qed.

Lemma literal_plus_matches_repetitions_witness :
  run_match 1 1 "a+" "aaa" = Ok true.
Proof.
  exact (literal_plus_matches_repetitions 0 1 "a" "aaa" eq_refl).
Defined.

Lemma build_literal_optional (c0 : Z) (c : ascii) :
  is_literal c = true ->
  build c0 (String c "?") = Ok (mkNFA 1 3, optional_arena c).
Proof.
  intros H. destruct (is_literal_facts c H) as (Hu & Hb & Ho & Hc).
  unfold build, build_nfa, build_from_counter.
  cbn [list_ascii_of_string scan].
  unfold build_char at 1. rewrite Hu, Hb, Ho, Hc, Char_init_class.
  reflexivity.
Qed.

Lemma optional_entry_step (depth : nat) (c x : ascii) :
  State_match (S (S depth)) (optional_arena c) 1 x
  = Ok ((if accepts c x then [2] else []) ++ [3]).
Proof.
  change (State_match (S (S depth)) (optional_arena c) 1 x)
    with (Split_match_loop
            (fun s => State_match (S depth) (optional_arena c) s x)
            (optional_arena c) [0; 2] []).
  cbn [Split_match_loop].
  rewrite (type_is_End_Char_class (optional_arena c) 0 c 1 [2] eq_refl).
  rewrite (Char_class_step depth (optional_arena c) 0 c 1 [2] x eq_refl).
  reflexivity.
Qed.

(** X13. For a literal [c], [match_pattern("c?", input)] is [True] for
    every input of one symbol, and for the inputs of two symbols whose
    first [c] accepts; it is [False] for all others, the empty input
    among them. *)
Theorem literal_optional_accepts :
  forall (depth : nat) (c0 : Z) (c : ascii) (input : string),
    is_literal c = true ->
    run_match (S (S depth)) c0 (String c "?") input
    = Ok (optional_accepts c (list_ascii_of_string input)).
Proof.
  intros depth c0 c input H.
  pose proof (build_literal_optional c0 c H) as Hb.
  unfold build in Hb. unfold run_match, match_pattern, bind.
  destruct (build_nfa (String c "?") (boot c0)) as [[nfa|e] s]; [|discriminate].
  injection Hb as -> Hh. cbn [get_heap fst snd start_state end_state].
  rewrite Hh. change (py_set [1]) with [1].
  destruct (list_ascii_of_string input) as [|x [|y [|z rest]]];
    [reflexivity| | |];
    cbn [simulate length Nat.eqb extend_all optional_accepts];
    rewrite optional_entry_step; destruct (accepts c x);
    try reflexivity; apply simulate_no_state.
Qed.

Lemma literal_optional_accepts_witness :
  run_match 2 1 "a?" "b" = Ok true.
Proof.
  exact (literal_optional_accepts 0 1 "a" "b" eq_refl).
Defined.

Lemma build_literal_alternation (c0 : Z) (a b : ascii) :
  is_literal a = true -> is_literal b = true ->
  build c0 (String a (String "|" (String b "")))
  = Ok (mkNFA 2 4, alternation_arena a b).
Proof.
  intros Ha Hb.
  destruct (is_literal_facts a Ha) as (Hu & Hb1 & Ho & Hc).
  destruct (is_literal_facts b Hb) as (Hu' & Hb1' & Ho' & Hc').
  unfold build, build_nfa, build_from_counter.
  cbn [list_ascii_of_string scan].
  unfold build_char.
  rewrite Hu, Hb1, Ho, Hc, Hu', Hb1', Ho', Hc', !Char_init_class.
  change (py_str_index (String a (String "|" (String b ""))) (Z.of_nat 0 - 1))
    with (Some b).
  cbn [lift]. unfold bind at 1 2 3 4. cbn -[Char_class].
  rewrite Hb1'. reflexivity.
Qed.

Lemma alternation_entry_step (depth : nat) (a b x : ascii) :
  State_match (S (S depth)) (alternation_arena a b) 2 x
  = Ok ((if accepts a x then [3] else []) ++ (if accepts b x then [3] else [])).
Proof.
  change (State_match (S (S depth)) (alternation_arena a b) 2 x)
    with (Split_match_loop
            (fun s => State_match (S depth) (alternation_arena a b) s x)
            (alternation_arena a b) [0; 1] []).
  cbn [Split_match_loop].
  rewrite (type_is_End_Char_class (alternation_arena a b) 0 a 1 [3] eq_refl).
  rewrite (Char_class_step depth (alternation_arena a b) 0 a 1 [3] x eq_refl).
  rewrite (type_is_End_Char_class (alternation_arena a b) 1 b 2 [3] eq_refl).
  rewrite (Char_class_step depth (alternation_arena a b) 1 b 2 [3] x eq_refl).
  reflexivity.
Qed.

(** X14. For literals [a] and [b], [match_pattern("a|b", input)] is [True]
    exactly for the inputs of two symbols whose first [a] or [b] accepts:
    the exit [Split] stands between the operands and [End], and takes a
    symbol of its own. *)
Theorem literal_alternation_accepts :
  forall (depth : nat) (c0 : Z) (a b : ascii) (input : string),
    is_literal a = true -> is_literal b = true ->
    run_match (S (S depth)) c0 (String a (String "|" (String b ""))) input
    = Ok (alternation_accepts a b (list_ascii_of_string input)).
Proof.
  intros depth c0 a b input Ha Hb.
  pose proof (build_literal_alternation c0 a b Ha Hb) as Hbuild.
  unfold build in Hbuild. unfold run_match, match_pattern, bind.
  destruct (build_nfa _ (boot c0)) as [[nfa|e] s]; [|discriminate].
  injection Hbuild as -> Hh. cbn [get_heap fst snd start_state end_state].
  rewrite Hh. change (py_set [2]) with [2].
  destruct (list_ascii_of_string input) as [|x [|y [|z rest]]];
    [reflexivity| | |];
    cbn [simulate length Nat.eqb extend_all alternation_accepts];
    rewrite alternation_entry_step;
    destruct (accepts a x), (accepts b x);
    try reflexivity; apply simulate_no_state.
Qed.

Lemma literal_alternation_accepts_witness :
  run_match 2 1 "a|b" "a" = Ok false.
Proof.
  exact (literal_alternation_accepts 0 1 "a" "b" "a" eq_refl eq_refl).
Defined.

(** ** Chains of literals *)

Lemma length_chain_nodes (base : nat) (cs : list ascii) :
  length (chain_nodes base cs) = length cs.
Proof.
  revert base. induction cs as [|c cs IH]; intros base; [reflexivity|].
  cbn. now rewrite IH.
Qed.

Lemma chain_nodes_snoc (base : nat) (cs : list ascii) (c : ascii) :
  chain_nodes base (cs ++ [c])
  = chain_nodes base cs
    ++ [mkState (Char_class c) (Z.of_nat (base + length cs) + 1)
          [S (base + length cs)]].
Proof.
  revert base. induction cs as [|c' cs IH]; intros base; cbn.
  - now rewrite Nat.add_0_r.
  - rewrite IH. now rewrite <- plus_n_Sm.
Qed.

Lemma chain_nodes_lookup (cs : list ascii) :
  forall (base k : nat) (c : ascii),
    cs !! k = Some c ->
    chain_nodes base cs !! k
    = Some (mkState (Char_class c) (Z.of_nat (base + k) + 1) [S (base + k)]).
Proof.
  induction cs as [|c' cs IH]; intros base k c Hk; [discriminate|].
  destruct k as [|k].
  - cbn in Hk. injection Hk as ->. cbn. now rewrite Nat.add_0_r.
  - replace (base + S k) with (S base + k) by lia.
    exact (IH (S base) k c Hk).
Qed.

Lemma length_open_arena (init : list ascii) (l : ascii) :
  length (open_arena init l) = S (length init).
Proof.
  unfold open_arena. rewrite length_app, length_chain_nodes. cbn. lia.
Qed.

(** Giving the last node of an open arena its edge to the node made after
    it. *)
Lemma open_arena_connect (init : list ascii) (l : ascii) (new : State) :
  alter (fun st => mkState (cls st) (state_id st)
                     (next_states st ++ [S (length init)]))
        (length init) (open_arena init l ++ [new])
  = chain_nodes 0 (init ++ [l]) ++ [new].
Proof.
  unfold open_arena. rewrite <- app_assoc.
  rewrite alter_app_r_alt by (rewrite length_chain_nodes; lia).
  rewrite length_chain_nodes, Nat.sub_diag.
  rewrite chain_nodes_snoc, <- app_assoc. reflexivity.
Qed.

Lemma get_list_ascii (s : string) :
  forall n, String.get n s = nth_error (list_ascii_of_string s) n.
Proof.
  induction s as [|c s IH]; intros [|n]; cbn; auto.
Qed.

Lemma length_list_ascii (s : string) :
  String.length s = length (list_ascii_of_string s).
Proof. induction s as [|c s IH]; cbn; auto. Qed.

(** [pattern[i-1]] for an index [i] of the pattern: a character of the
    pattern, the last one when [i] is 0. *)
Lemma py_str_index_prev (pattern : string) (i : nat) :
  i < length (list_ascii_of_string pattern) ->
  exists prev,
    py_str_index pattern (Z.of_nat i - 1) = Some prev
    /\ In prev (list_ascii_of_string pattern).
Proof.
  intros Hi. unfold py_str_index. rewrite length_list_ascii. cbv zeta.
  set (n := length (list_ascii_of_string pattern)) in *.
  assert (Hget : forall k, k < n ->
            exists prev, String.get k pattern = Some prev
                         /\ In prev (list_ascii_of_string pattern)).
  { intros k Hk. rewrite get_list_ascii.
    destruct (nth_error (list_ascii_of_string pattern) k) as [prev|] eqn:E.
    - exists prev. split; [reflexivity|]. eapply nth_error_In, E.
    - apply nth_error_None in E. fold n in E. lia. }
  destruct i as [|i].
  - replace (Z.of_nat 0 - 1 <? 0)%Z with true by reflexivity. cbv iota.
    replace (Z.of_nat 0 - 1 + Z.of_nat n <? 0)%Z with false
      by (symmetry; apply Z.ltb_ge; lia).
    apply Hget. lia.
  - assert (E0 : (Z.of_nat (S i) - 1 <? 0)%Z = false) by (apply Z.ltb_ge; lia).
    rewrite E0. cbv iota. rewrite E0.
    replace (Z.to_nat (Z.of_nat (S i) - 1)) with i by lia.
    apply Hget. lia.
Qed.

Lemma prev_is_no_bar (pattern : string) (i : nat) :
  Forall (fun c => is_literal c = true) (list_ascii_of_string pattern) ->
  i < length (list_ascii_of_string pattern) ->
  exists prev,
    py_str_index pattern (Z.of_nat i - 1) = Some prev
    /\ Ascii.eqb prev "|" = false.
Proof.
  intros Hall Hi. destruct (py_str_index_prev pattern i Hi) as (prev & E & Hin).
  exists prev. split; [exact E|].
  rewrite Forall_forall in Hall. apply list_elem_of_In in Hin.
  now destruct (is_literal_facts prev (Hall prev Hin)) as (_ & Hb & _).
Qed.

(** The first literal of a pattern of literals. *)
Lemma build_char_first_literal (pattern : string) (c prev : ascii) :
  is_literal c = true ->
  py_str_index pattern (Z.of_nat 0 - 1) = Some prev ->
  Ascii.eqb prev "|" = false ->
  build_char pattern 0 c [[]] [None] (mkInterp 1 [])
  = (Ok ([[Some (mkNFA 0 0)]], [None]), open_state [] c).
Proof.
  intros H Hprev Hbar. destruct (is_literal_facts c H) as (Hu & Hb & Ho & Hc).
  unfold build_char. rewrite Hu, Hb, Ho, Hc, Char_init_class, Hprev.
  unfold bind. cbn -[Char_class]. rewrite Hbar. reflexivity.
Qed.

(** A further literal: it is connected to the chain. *)
Lemma build_char_next_literal (pattern : string) (init : list ascii)
    (l c prev : ascii) :
  is_literal c = true ->
  py_str_index pattern (Z.of_nat (S (length init)) - 1) = Some prev ->
  Ascii.eqb prev "|" = false ->
  build_char pattern (S (length init)) c
    [[Some (mkNFA 0 (length init))]] [None] (open_state init l)
  = (Ok ([[Some (mkNFA 0 (S (length init)))]], [None]),
     open_state (init ++ [l]) c).
Proof.
  intros H Hprev Hbar. destruct (is_literal_facts c H) as (Hu & Hb & Ho & Hc).
  unfold build_char. rewrite Hu, Hb, Ho, Hc, Char_init_class, Hprev.
  unfold bind, open_state.
  cbn -[Char_class open_arena Z.of_nat Z.add]. rewrite Hbar.
  cbn -[Char_class open_arena Z.of_nat Z.add alter].
  rewrite length_open_arena.
  rewrite (open_arena_connect init l).
  unfold open_arena at 1. rewrite length_app. cbn [length].
  rewrite Nat.add_1_r. f_equal. f_equal. lia.
Qed.

(** The scan of further literals extends the chain. *)
Lemma scan_literals (pattern : string) (rest : list ascii) :
  forall (init : list ascii) (l : ascii),
    Forall (fun c => is_literal c = true) rest ->
    (forall i, i < S (length init) + length rest ->
               exists prev, py_str_index pattern (Z.of_nat i - 1) = Some prev
                            /\ Ascii.eqb prev "|" = false) ->
    exists init' l',
      init' ++ [l'] = init ++ l :: rest
      /\ scan pattern (S (length init)) rest
           [[Some (mkNFA 0 (length init))]] [None] (open_state init l)
         = (Ok ([[Some (mkNFA 0 (length init'))]], [None]),
            open_state init' l').
Proof.
  induction rest as [|c rest IH]; intros init l Hall Hprev.
  - exists init, l. split; reflexivity.
  - apply Forall_cons in Hall as [Hc Hall].
    destruct (Hprev (S (length init))) as (prev & Eprev & Hbar);
      [cbn; lia|].
    destruct (IH (init ++ [l]) c Hall) as (init' & l' & Eq & Escan).
    { intros i Hi. apply Hprev. rewrite length_app in Hi. cbn in *. lia. }
    exists init', l'. split; [now rewrite Eq, <- app_assoc|].
    cbn [scan]. unfold bind at 1.
    rewrite (build_char_next_literal pattern init l c prev Hc Eprev Hbar).
    rewrite length_app, Nat.add_1_r in Escan. exact Escan.
Qed.

Lemma literals_build_a_chain_lemma :
  forall (c0 : Z) (pattern : string),
    pattern <> "" ->
    Forall (fun c => is_literal c = true) (list_ascii_of_string pattern) ->
    build c0 pattern
    = Ok (mkNFA 0 (String.length pattern),
          chain_arena (list_ascii_of_string pattern)).
Proof.
  intros c0 pattern Hne Hall. rewrite length_list_ascii.
  assert (Hprev : forall i, i < length (list_ascii_of_string pattern) ->
            exists prev, py_str_index pattern (Z.of_nat i - 1) = Some prev
                         /\ Ascii.eqb prev "|" = false).
  { intros i Hi. now apply prev_is_no_bar. }
  unfold build, build_nfa, build_from_counter.
  destruct (list_ascii_of_string pattern) as [|c rest] eqn:Ecs.
  { destruct pattern; [now destruct Hne | discriminate]. }
  apply Forall_cons in Hall as [Hc Hall].
  destruct (Hprev 0) as (prev & Eprev & Hbar); [cbn; lia|].
  destruct (scan_literals pattern rest [] c Hall) as (init' & l' & Eq & Escan).
  { intros i Hi. apply Hprev. cbn in *. lia. }
  cbn [scan]. unfold bind at 1 2 3. cbn [set_id_count boot heap].
  rewrite (build_char_first_literal pattern c prev Hc Eprev Hbar).
  cbn [length] in Escan. rewrite Escan.
  unfold bind, open_state.
  cbn -[open_arena Z.of_nat Z.add alter].
  rewrite length_open_arena, (open_arena_connect init' l').
  cbn [app] in Eq.
  assert (Hlen : length rest = length init').
  { apply (f_equal length) in Eq. rewrite length_app in Eq. cbn in Eq. lia. }
  rewrite Eq. cbn [length]. rewrite Hlen. reflexivity.
Qed.

(** X10. A non-empty pattern of literals and wildcards builds a chain: one
    [Char] node for each character, each with its edge to the next, and
    the [End] node after the last. *)
Theorem literals_build_a_chain :
  forall (c0 : Z) (pattern : string),
    pattern <> "" ->
    Forall (fun c => is_literal c = true) (list_ascii_of_string pattern) ->
    build c0 pattern
    = Ok (mkNFA 0 (String.length pattern),
          chain_arena (list_ascii_of_string pattern)).
Proof. exact literals_build_a_chain_lemma. Qed.

Lemma literals_build_a_chain_witness :
  build 1 "ab" = Ok (mkNFA 0 2, chain_arena ["a"; "b"]%char).
Proof.
  refine (literals_build_a_chain 1 "ab" _ _).
  - discriminate.
  - repeat constructor.
Defined.

Lemma chain_arena_lookup_Char (cs : list ascii) (k : nat) (c : ascii) :
  cs !! k = Some c ->
  chain_arena cs !! k
  = Some (mkState (Char_class c) (Z.of_nat k + 1) [S k]).
Proof.
  intros Hk. unfold chain_arena.
  rewrite lookup_app_l
    by (rewrite length_chain_nodes; eapply lookup_lt_Some, Hk).
  exact (chain_nodes_lookup cs 0 k c Hk).
Qed.

Lemma chain_arena_lookup_End (cs : list ascii) :
  chain_arena cs !! length cs = Some (mkState End (-1) []).
Proof.
  unfold chain_arena. rewrite lookup_app_r by (rewrite length_chain_nodes; lia).
  now rewrite length_chain_nodes, Nat.sub_diag.
Qed.

(** On a chain the set of states is one node, and the simulation compares
    the rest of the pattern with the rest of the input. *)
Lemma chain_arena_simulate (depth : nat) (cs : list ascii) :
  forall (input : list ascii) (k : nat),
    k <= length cs ->
    simulate (S depth) (chain_arena cs) (length cs) input [k]
    = Ok (literal_match (drop k cs) input).
Proof.
  induction input as [|x input IH]; intros k Hk.
  - cbn [simulate set_mem existsb]. rewrite orb_false_r.
    destruct (Nat.eqb_spec (length cs) k) as [<-|Hne].
    + now rewrite drop_all.
    + destruct (lookup_lt_is_Some_2 cs k) as [c Hc]; [lia|].
      now rewrite (drop_S cs c k Hc).
  - cbn [simulate length Nat.eqb extend_all].
    destruct (decide (k = length cs)) as [->|Hne].
    + assert (E : State_match (S depth) (chain_arena cs) (length cs) x = Ok [])
        by (cbn [State_match]; now rewrite chain_arena_lookup_End).
      rewrite E, drop_all. cbn. apply simulate_no_state.
    + destruct (lookup_lt_is_Some_2 cs k) as [c Hc]; [lia|].
      rewrite (Char_class_step depth _ k c _ _ x (chain_arena_lookup_Char cs k c Hc)).
      rewrite (drop_S cs c k Hc). cbn [literal_match app].
      destruct (accepts c x); cbn [py_set existsb andb].
      * apply IH. apply lookup_lt_Some in Hc. lia.
      * apply simulate_no_state.
Qed.

(** X11. A non-empty pattern of literals and wildcards matches exactly the
    inputs of its length whose symbols it accepts one by one. *)
Theorem literals_match_exactly :
  forall (depth : nat) (c0 : Z) (pattern input : string),
    pattern <> "" ->
    Forall (fun c => is_literal c = true) (list_ascii_of_string pattern) ->
    run_match (S depth) c0 pattern input
    = Ok (literal_match (list_ascii_of_string pattern)
            (list_ascii_of_string input)).
Proof.
  intros depth c0 pattern input Hne Hall.
  pose proof (literals_build_a_chain_lemma c0 pattern Hne Hall) as Hb.
  unfold build in Hb. unfold run_match, match_pattern, bind.
  destruct (build_nfa pattern (boot c0)) as [[nfa|e] s]; [|discriminate].
  injection Hb as -> Hh. cbn [get_heap fst snd start_state end_state].
  rewrite Hh, length_list_ascii. change (py_set [0]) with [0].
  apply (chain_arena_simulate depth _ _ 0). lia.
Qed.

Lemma literals_match_exactly_witness :
  run_match 1 1 "a.c" "abc" = Ok true.
Proof.
  refine (literals_match_exactly 0 1 "a.c" "abc" _ _).
  - discriminate.
  - repeat constructor.
Defined.

(** ** Invariants that every step of a build keeps *)

Lemma preserves_ret {A} (P : Interp -> Prop) (a : A) : preserves P (ret a).
Proof. intros s H. exact H. Qed.

Lemma preserves_raise {A} (P : Interp -> Prop) (e : exn) :
  preserves P (raise (A:=A) e).
Proof. intros s H. exact H. Qed.

Lemma preserves_lift {A} (P : Interp -> Prop) (o : option A) (e : exn) :
  preserves P (lift o e).
Proof. intros s H. now destruct o. Qed.

Lemma preserves_bind {A B} (P : Interp -> Prop) (m : M A) (k : A -> M B) :
  preserves P m -> (forall a, preserves P (k a)) -> preserves P (bind m k).
Proof.
  intros Hm Hk s H. unfold bind. specialize (Hm s H).
  destruct (m s) as [[a|e] s']; [now apply Hk | exact Hm].
Qed.

Create HintDb preserves.

#[local] Hint Resolve preserves_ret preserves_raise preserves_lift : preserves.

Ltac preserves_step :=
  match goal with
  | |- preserves _ (bind _ _) => apply preserves_bind; [|intros]
  | |- preserves _ (if ?b then _ else _) => destruct b
  | |- preserves _ (match ?x with _ => _ end) => destruct x
  | |- preserves _ _ => solve [auto with preserves]
  end.

Ltac preserves_all := repeat preserves_step.

(** Whatever the three operations on the arena keep, the scan and
    [finalize_nfa_stack] keep. *)
Section ScanPreserves.

Variable P : Interp -> Prop.
Hypothesis P_Char_init : forall char, preserves P (Char_init char).
Hypothesis P_Split_init : preserves P Split_init.
Hypothesis P_add_next_state : forall a b, preserves P (add_next_state a b).

Lemma preserves_connect self next_nfa : preserves P (connect self next_nfa).
Proof. unfold connect, attr. preserves_all. Qed.

Lemma preserves_loop self : preserves P (loop self).
Proof. unfold loop. preserves_all. Qed.

Lemma preserves_bypass self : preserves P (bypass self).
Proof. unfold bypass. preserves_all. Qed.

Lemma preserves_wrap self other_nfa : preserves P (wrap self other_nfa).
Proof. unfold wrap, attr. preserves_all. Qed.

#[local] Hint Resolve preserves_connect preserves_loop preserves_bypass
  preserves_wrap : preserves.

Lemma preserves_wrap_all self other_nfa :
  preserves P (wrap_all self other_nfa).
Proof. induction other_nfa; cbn [wrap_all]; preserves_all. Qed.

#[local] Hint Resolve preserves_wrap_all : preserves.

Lemma preserves_NFA_init_other other_nfa :
  preserves P (NFA_init_other other_nfa).
Proof. unfold NFA_init_other. preserves_all. Qed.

#[local] Hint Resolve preserves_NFA_init_other : preserves.

Lemma preserves_finalize_nfa_stack nfa_stack curr_nfa :
  preserves P (finalize_nfa_stack nfa_stack curr_nfa).
Proof.
  unfold finalize_nfa_stack, index_last, pop, assign_last. preserves_all.
Qed.

#[local] Hint Resolve preserves_finalize_nfa_stack : preserves.

Lemma preserves_build_char pattern i char nfa_stack curr_nfa :
  preserves P (build_char pattern i char nfa_stack curr_nfa).
Proof.
  unfold build_char, append_top, pop_top, index_last, pop, assign_last, attr.
  preserves_all.
Qed.

#[local] Hint Resolve preserves_build_char : preserves.

Lemma preserves_scan pattern rest :
  forall i nfa_stack curr_nfa,
    preserves P (scan pattern i rest nfa_stack curr_nfa).
Proof.
  induction rest as [|char rest IH]; intros i nfa_stack curr_nfa;
    cbn [scan]; preserves_all.
Qed.

End ScanPreserves.

(** ** The identities *)

Lemma ids_State_init (c : class) : preserves ids_inv (State_init c None).
Proof.
  intros s [Hid Hnodes]. cbn. split; cbn.
  - rewrite length_app. cbn. lia.
  - intros j st Hj. destruct (decide (j < length (heap s))) as [Hlt|Hge].
    + rewrite lookup_app_l in Hj by exact Hlt. now apply Hnodes.
    + pose proof (lookup_lt_Some _ _ _ Hj) as Hb.
      rewrite length_app in Hb. cbn in Hb.
      assert (j = length (heap s)) as -> by lia.
      rewrite lookup_app_r, Nat.sub_diag in Hj by lia.
      injection Hj as <-. cbn. lia.
Qed.

Lemma ids_Char_init (char : ascii) : preserves ids_inv (Char_init char).
Proof.
  unfold Char_init. destruct (Ascii.eqb char "."); apply ids_State_init.
Qed.

Lemma ids_add_next_state (a b : nat) : preserves ids_inv (add_next_state a b).
Proof.
  intros s [Hid Hnodes]. cbn. split; cbn.
  - now rewrite length_alter.
  - intros j st Hj. rewrite list_lookup_alter in Hj.
    case_decide as E; [|now apply Hnodes]. subst j.
    destruct (heap s !! a) as [st0|] eqn:E0; [|discriminate].
    injection Hj as <-. cbn. now apply Hnodes.
Qed.

Lemma ids_scan_and_finalize (pattern : string) :
  match scan pattern 0 (list_ascii_of_string pattern) [[]] [None]
          (mkInterp 1 []) with
  | (Ok (ns, cn), s1) => ids_inv (snd (finalize_nfa_stack ns cn s1))
  | (Raise _, _) => True
  end.
Proof.
  assert (H0 : ids_inv (mkInterp 1 [])).
  { split; [reflexivity|]. intros j st Hj. discriminate Hj. }
  pose proof (preserves_scan ids_inv ids_Char_init (ids_State_init Split)
                ids_add_next_state pattern (list_ascii_of_string pattern)
                0 [[]] [None] _ H0) as H1.
  destruct (scan pattern 0 (list_ascii_of_string pattern) [[]] [None]
              (mkInterp 1 [])) as [[[ns cn]|e] s1]; [|exact I].
  exact (preserves_finalize_nfa_stack ids_inv (ids_State_init Split)
           ids_add_next_state ns cn s1 H1).
Qed.

(** X7. In a returned automaton the node created [j]-th (from 0) has identity
    [j + 1] and the [End] node has identity [-1]: [get_id] tells any two
    nodes apart. *)
Theorem identities_are_distinct :
  forall (c : Z) (pattern : string) (nfa : NFA) (h : list State),
    build c pattern = Ok (nfa, h) ->
    (forall j st, h !! j = Some st ->
       get_id st = if j =? end_state nfa then (-1)%Z else (Z.of_nat j + 1)%Z)
    /\ (forall i j sti stj,
          h !! i = Some sti -> h !! j = Some stj ->
          get_id sti = get_id stj -> i = j).
Proof.
  intros c pattern nfa h E.
  pose proof (build_outcome c pattern) as Hshape. rewrite E in Hshape.
  destruct Hshape as (_ & Hlen & Hend & _ & _).
  assert (Hids : forall j st, h !! j = Some st -> j < end_state nfa ->
                   state_id st = (Z.of_nat j + 1)%Z).
  { unfold build, build_nfa, build_from_counter in E.
    unfold bind at 1 2 in E. cbn [set_id_count boot heap] in E.
    pose proof (ids_scan_and_finalize pattern) as H2.
    destruct (scan pattern 0 (list_ascii_of_string pattern) [[]] [None]
                (mkInterp 1 [])) as [[[ns cn]|e] s1]; [|discriminate].
    unfold bind at 1 in E.
    destruct (finalize_nfa_stack ns cn s1) as [[[ns' cn']|e] s2];
      [|discriminate].
    cbn [snd] in H2. destruct H2 as [_ H2].
    unfold bind, End_init, State_init, alloc, index_first, lift in E.
    destruct cn' as [|[self|] rest]; try discriminate E.
    cbn in E. injection E as <- <-.
    intros j st Hj Hlt. cbn [end_state] in Hlt.
    rewrite list_lookup_alter in Hj.
    case_decide as Ei; rewrite lookup_app_l in Hj by (subst; exact Hlt);
      [|now apply H2].
    subst j.
    destruct (heap s2 !! end_state self) as [st0|] eqn:E0; [|discriminate].
    injection Hj as <-. cbn. now apply H2. }
  assert (Hall : forall j st, h !! j = Some st ->
            get_id st = if j =? end_state nfa then (-1)%Z
                        else (Z.of_nat j + 1)%Z).
  { intros j st Hj. unfold get_id.
    destruct (Nat.eqb_spec j (end_state nfa)) as [->|Hne].
    - rewrite Hend in Hj. now injection Hj as <-.
    - apply Hids; [exact Hj|]. apply lookup_lt_Some in Hj. lia. }
  split; [exact Hall|].
  intros i j sti stj Hi Hj Heq.
  rewrite (Hall i sti Hi), (Hall j stj Hj) in Heq.
  destruct (Nat.eqb_spec i (end_state nfa)), (Nat.eqb_spec j (end_state nfa));
    lia.
Qed.

Lemma identities_are_distinct_witness :
  (forall j st, optional_heap !! j = Some st ->
     get_id st = if j =? 3 then (-1)%Z else (Z.of_nat j + 1)%Z)
  /\ (forall i j sti stj,
        optional_heap !! i = Some sti -> optional_heap !! j = Some stj ->
        get_id sti = get_id stj -> i = j).
Proof.
  exact (identities_are_distinct 1 "a?" (mkNFA 1 3) optional_heap eq_refl).
Defined.

(** ** The attributes that __repr__ reads *)

Lemma attrs_State_init (c : class) (sid : option Z) :
  attrs_set c -> preserves attrs_inv (State_init c sid).
Proof.
  intros Hc s H. unfold attrs_inv in *.
  destruct sid; cbn; (apply Forall_app; split; [exact H|]);
    now apply Forall_singleton.
Qed.

Lemma attrs_Char_init (char : ascii) : preserves attrs_inv (Char_init char).
Proof.
  unfold Char_init. destruct (Ascii.eqb char "."); apply attrs_State_init;
    cbn; split; congruence.
Qed.

Lemma attrs_add_next_state (a b : nat) :
  preserves attrs_inv (add_next_state a b).
Proof.
  intros s H. unfold attrs_inv in *. cbn.
  apply Forall_alter; [exact H|]. intros x _ Hx. exact Hx.
Qed.

Lemma attrs_set_id_count (c : Z) : preserves attrs_inv (set_id_count c).
Proof. intros s H. exact H. Qed.

Lemma attrs_build_nfa (pattern : string) :
  preserves attrs_inv (build_nfa pattern).
Proof.
  pose proof (attrs_State_init Split None I) as HSplit.
  pose proof (attrs_State_init End (Some (-1)%Z) I) as HEnd.
  pose proof attrs_Char_init as HChar.
  pose proof attrs_add_next_state as Hadd.
  pose proof attrs_set_id_count as Hset.
  pose proof (preserves_scan attrs_inv HChar HSplit Hadd pattern) as Hscan.
  pose proof (preserves_finalize_nfa_stack attrs_inv HSplit Hadd) as Hfin.
  pose proof (preserves_connect attrs_inv Hadd) as Hconn.
  unfold build_nfa, build_from_counter, index_first, attr, End_init.
  preserves_all.
Qed.

(** X9. [repr] of a node of a returned automaton raises [AttributeError] when
    the node is a wildcard and returns a string otherwise. *)
Theorem repr_raises_on_wildcards_only :
  forall (c : Z) (pattern : string) (nfa : NFA) (h : list State)
         (j : nat) (st : State),
    build c pattern = Ok (nfa, h) ->
    h !! j = Some st ->
    if is_wildcard st then State_repr st = Raise AttributeError
    else exists text, State_repr st = Ok text.
Proof.
  intros c pattern nfa h j st E Hj.
  assert (Hinv : attrs_inv (snd (build_nfa pattern (boot c)))).
  { apply attrs_build_nfa. constructor. }
  unfold build in E.
  destruct (build_nfa pattern (boot c)) as [[nfa'|e] s']; [|discriminate].
  injection E as -> <-. cbn [snd] in Hinv.
  pose proof (Forall_lookup_1 _ _ _ _ Hinv Hj) as Hst. cbn beta in Hst.
  unfold is_wildcard, State_repr.
  destruct (cls st) as [ma mc| | |]; try (eexists; reflexivity).
  cbn in Hst. destruct ma, mc as [ch|].
  - destruct Hst as [_ Hst]. now specialize (Hst eq_refl).
  - reflexivity.
  - eexists; reflexivity.
  - destruct Hst as [Hst _]. now specialize (Hst eq_refl).
Qed.

Lemma repr_raises_on_wildcards_only_witness :
  State_repr (mkState (Char true None) 2 [2]) = Raise AttributeError.
Proof.
  exact (repr_raises_on_wildcards_only 1 "a." (mkNFA 0 2)
           (chain_arena ["a"; "."]%char) 1 _ eq_refl eq_refl).
Defined.

(** ** The end state is reachable from the start state *)

Lemma reachable_trans h a b c :
  reachable h a b -> reachable h b c -> reachable h a c.
Proof.
  induction 1 as [|a b b' Hab _ IH]; [auto|].
  intros Hc. eapply reachable_step; [exact Hab | now apply IH].
Qed.

Lemma reachable_edge h a b : edge h a b -> reachable h a b.
Proof. intros H. eapply reachable_step; [exact H | constructor]. Qed.

Lemma grows_refl h : grows h h.
Proof. split; auto. Qed.

Lemma grows_trans h1 h2 h3 : grows h1 h2 -> grows h2 h3 -> grows h1 h3.
Proof. intros [L1 E1] [L2 E2]. split; [lia | auto]. Qed.

Lemma reachable_grows h h' a b : grows h h' -> reachable h a b -> reachable h' a b.
Proof.
  intros [_ Hg]. induction 1 as [|a b c Hab _ IH]; [constructor|].
  eapply reachable_step; [apply Hg, Hab | exact IH].
Qed.

Lemma connected_grows h h' nfa :
  grows h h' -> connected h nfa -> connected h' nfa.
Proof.
  intros Hg (Hs & He & Hr). pose proof Hg as [Hlen _].
  repeat split; [lia | lia | now apply (reachable_grows h)].
Qed.

Lemma connected_opt_grows h h' x :
  grows h h' -> connected_opt h x -> connected_opt h' x.
Proof. destruct x; cbn; [apply connected_grows | auto]. Qed.

Lemma connected_accs_grows h h' l :
  grows h h' -> connected_accs h l -> connected_accs h' l.
Proof.
  intros Hg H. eapply Forall_impl; [exact H|].
  intros x. now apply connected_opt_grows.
Qed.

Lemma connected_frames_grows h h' l :
  grows h h' -> connected_frames h l -> connected_frames h' l.
Proof.
  intros Hg H. eapply Forall_impl; [exact H|].
  intros x. now apply connected_accs_grows.
Qed.

(** Moves every fact about the arena [h] to the arena [h'] grown from it. *)
Ltac carry Hg :=
  repeat match goal with
  | H : Forall (connected_opt ?h) ?l |- _ =>
      change (connected_accs h l) in H
  | H : Forall (connected_accs ?h) ?l |- _ =>
      change (connected_frames h l) in H
  end;
  repeat match goal with
  | H : connected ?h ?x |- _ =>
      match type of Hg with grows h ?h' =>
        apply (connected_grows h h' x Hg) in H end
  | H : connected_opt ?h ?x |- _ =>
      match type of Hg with grows h ?h' =>
        apply (connected_opt_grows h h' x Hg) in H end
  | H : connected_accs ?h ?x |- _ =>
      match type of Hg with grows h ?h' =>
        apply (connected_accs_grows h h' x Hg) in H end
  | H : connected_frames ?h ?x |- _ =>
      match type of Hg with grows h ?h' =>
        apply (connected_frames_grows h h' x Hg) in H end
  | H : ?r < length ?h |- _ =>
      match type of Hg with grows h ?h' =>
        apply (Nat.lt_le_trans r (length h) (length h')) in H;
          [|exact (proj1 Hg)] end
  end.

Lemma links_ret {A} (a : A) s (Q : A -> list State -> Prop) :
  Q a (heap s) -> links (ret a) s Q.
Proof. intros H. split; [apply grows_refl | exact H]. Qed.

Lemma links_raise {A} (e : exn) s (Q : A -> list State -> Prop) :
  links (raise e) s Q.
Proof. exact I. Qed.

Lemma links_bind {A B} (m : M A) (k : A -> M B) s
    (Q1 : A -> list State -> Prop) (Q2 : B -> list State -> Prop) :
  links m s Q1 ->
  (forall a s', grows (heap s) (heap s') -> Q1 a (heap s') ->
                links (k a) s' Q2) ->
  links (bind m k) s Q2.
Proof.
  unfold links, bind. intros Hm Hk.
  destruct (m s) as [[a|e] s']; [|exact I].
  destruct Hm as [Hg HQ]. specialize (Hk a s' Hg HQ).
  destruct (k a s') as [[b|e] s'']; [|exact I].
  destruct Hk as [Hg' HQ']. split; [now apply (grows_trans _ (heap s'))|].
  exact HQ'.
Qed.

Lemma links_mono {A} (m : M A) s (Q1 Q2 : A -> list State -> Prop) :
  links m s Q1 ->
  (forall a h', grows (heap s) h' -> Q1 a h' -> Q2 a h') ->
  links m s Q2.
Proof.
  unfold links. intros Hm HQ. destruct (m s) as [[a|e] s']; [|exact I].
  destruct Hm as [Hg H]. split; [exact Hg | now apply HQ].
Qed.

Lemma links_lift {A} (o : option A) (e : exn) s
    (Q : A -> list State -> Prop) :
  (forall a, o = Some a -> Q a (heap s)) -> links (lift o e) s Q.
Proof.
  intros H. destruct o as [a|]; [|exact I]. apply links_ret. now apply H.
Qed.

Lemma edge_app h st a b : edge h a b -> edge (h ++ [st]) a b.
Proof.
  intros (st0 & Hl & Hin). exists st0. split; [|exact Hin].
  now apply lookup_app_l_Some.
Qed.

Lemma links_State_init (c : class) (sid : option Z) s :
  links (State_init c sid) s (fun r h' => r < length h').
Proof.
  assert (Hg : forall st, grows (heap s) (heap s ++ [st])).
  { intros st. split; [rewrite length_app; lia|].
    intros a b. apply edge_app. }
  destruct sid as [i|]; unfold links; cbn; (split; [apply Hg|]);
    rewrite length_app; cbn; lia.
Qed.

Lemma edge_alter h a b x y :
  edge h x y ->
  edge (alter (fun st => mkState (cls st) (state_id st)
                           (next_states st ++ [b])) a h) x y.
Proof.
  intros (st & Hl & Hin). unfold edge. rewrite list_lookup_alter.
  case_decide as E.
  - subst x. rewrite Hl. eexists. split; [reflexivity|]. cbn.
    apply in_or_app. now left.
  - exists st. now split.
Qed.

Lemma links_add_next_state (a b : ref) s :
  a < length (heap s) ->
  links (add_next_state a b) s (fun _ h' => edge h' a b).
Proof.
  intros Ha. unfold links. cbn. split.
  - split; [now rewrite length_alter|]. intros x y. apply edge_alter.
  - destruct (lookup_lt_is_Some_2 _ _ Ha) as [st Hst].
    unfold edge. rewrite list_lookup_alter. rewrite decide_True by reflexivity.
    rewrite Hst. eexists. split; [reflexivity|]. cbn.
    apply in_or_app. right. now left.
Qed.

Ltac lstep lem := eapply links_bind; [lem|]; cbn beta.

Lemma links_Char_init (char : ascii) s :
  links (Char_init char) s (fun r h' => r < length h').
Proof.
  unfold Char_init. destruct (Ascii.eqb char "."); apply links_State_init.
Qed.

Lemma links_attr (x : option NFA) s :
  connected_opt (heap s) x ->
  links (attr x) s (fun nfa h' => connected h' nfa).
Proof. intros Hx. apply links_lift. intros nfa ->. exact Hx. Qed.

Lemma links_connect (self : NFA) (next_nfa : option NFA) s :
  connected (heap s) self ->
  connected_opt (heap s) next_nfa ->
  links (connect self next_nfa) s (fun nfa h' => connected h' nfa).
Proof.
  intros Hself Hnext. unfold connect.
  lstep ltac:(now apply links_attr).
  intros next s1 Hg1 Hn. carry Hg1.
  lstep ltac:(apply links_add_next_state; apply Hself).
  intros _ s2 Hg2 He. carry Hg2.
  apply links_ret.
  destruct Hself as (Hs & _ & Hr), Hn as (_ & He' & Hr').
  repeat split; cbn [start_state end_state]; [exact Hs | exact He' |].
  eapply reachable_trans; [exact Hr|].
  eapply reachable_step; [exact He | exact Hr'].
Qed.

Lemma links_loop (self : NFA) s : links (loop self) s (fun _ _ => True).
Proof.
  unfold loop, links, add_next_state. split; [|exact I]. cbn.
  split; [now rewrite length_alter|]. intros x y. apply edge_alter.
Qed.

Lemma links_bypass (self : NFA) s : links (bypass self) s (fun _ _ => True).
Proof.
  unfold bypass, links, add_next_state. split; [|exact I]. cbn.
  split; [now rewrite length_alter|]. intros x y. apply edge_alter.
Qed.

Lemma links_wrap (self : NFA) (other_nfa : option NFA) s :
  start_state self < length (heap s) ->
  end_state self < length (heap s) ->
  connected_opt (heap s) other_nfa ->
  links (wrap self other_nfa) s (fun _ h' => connected h' self).
Proof.
  intros Hs He Hother. unfold wrap.
  lstep ltac:(now apply links_attr).
  intros other s1 Hg1 Ho. carry Hg1.
  lstep ltac:(now apply links_add_next_state).
  intros _ s2 Hg2 Hin. carry Hg2.
  eapply links_mono; [apply links_add_next_state; apply Ho|].
  intros [] h' Hg3 Hout. cbn beta in Hout. carry Hg3.
  apply (proj2 Hg3) in Hin.
  destruct Ho as (_ & _ & Hr).
  repeat split; [exact Hs | exact He |].
  eapply reachable_step; [exact Hin|].
  eapply reachable_trans; [exact Hr|]. now apply reachable_edge.
Qed.

Lemma links_wrap_all (self : NFA) (other_nfa : list (option NFA)) :
  forall s,
    start_state self < length (heap s) ->
    end_state self < length (heap s) ->
    connected_accs (heap s) other_nfa ->
    links (wrap_all self other_nfa) s
      (fun _ h' => other_nfa <> [] -> connected h' self).
Proof.
  induction other_nfa as [|x rest IH]; intros s Hs He Hother.
  - apply links_ret. intros H. now destruct H.
  - cbn [wrap_all]. apply Forall_cons in Hother as [Hx Hrest].
    lstep ltac:(now apply links_wrap).
    intros _ s1 Hg1 Hself. carry Hg1.
    eapply links_mono; [now apply IH|].
    intros _ h' Hg2 _ _. now apply (connected_grows (heap s1)).
Qed.

Lemma links_NFA_init_other (other_nfa : list (option NFA)) s :
  other_nfa <> [] ->
  connected_accs (heap s) other_nfa ->
  links (NFA_init_other other_nfa) s (fun nfa h' => connected h' nfa).
Proof.
  intros Hne Hother. unfold NFA_init_other, Split_init.
  lstep ltac:(apply links_State_init).
  intros a s1 Hg1 Ha. carry Hg1.
  lstep ltac:(apply links_State_init).
  intros b s2 Hg2 Hb. carry Hg2.
  lstep ltac:(now apply (links_wrap_all (mkNFA a b))).
  intros _ s3 Hg3 Hself. apply links_ret. now apply Hself.
Qed.

(** ** The list operations *)

Lemma links_index_last {A} (l : list A) s :
  links (index_last l) s (fun x _ => exists r, l = r ++ [x]).
Proof. apply links_lift. intros x Hx. now apply py_last_Some. Qed.

Lemma links_pop {A} (l : list A) s :
  links (pop l) s (fun p _ => l = snd p ++ [fst p]).
Proof. apply links_lift. intros [x r] Hx. now apply py_pop_Some. Qed.

Lemma links_assign_last {A} (l : list A) (x : A) s :
  links (assign_last l x) s
    (fun l' _ => exists r y, l = r ++ [y] /\ l' = r ++ [x]).
Proof. apply links_lift. intros l' Hl'. now apply py_set_last_Some. Qed.

Lemma connected_accs_snoc h (l : accumulators) x :
  connected_accs h (l ++ [x]) <-> connected_accs h l /\ connected_opt h x.
Proof.
  unfold connected_accs. rewrite Forall_app, Forall_singleton. reflexivity.
Qed.

Lemma connected_frames_snoc h (l : frames) top :
  connected_frames h (l ++ [top])
  <-> connected_frames h l /\ connected_accs h top.
Proof.
  unfold connected_frames. rewrite Forall_app, Forall_singleton. reflexivity.
Qed.

Lemma links_append_top (nfa_stack : frames) (x : option NFA) s :
  connected_frames (heap s) nfa_stack ->
  connected_opt (heap s) x ->
  links (append_top nfa_stack x) s (fun l h' => connected_frames h' l).
Proof.
  intros Hns Hx. unfold append_top.
  lstep ltac:(apply links_index_last).
  intros top s1 Hg1 [r ->]. carry Hg1.
  eapply links_mono; [apply links_assign_last|].
  intros l' h' Hg2 (r' & y & Heq & ->). cbn beta. carry Hg2.
  apply app_inj_tail in Heq as [<- <-].
  apply connected_frames_snoc in Hns as [Hr Htop].
  apply connected_frames_snoc. split; [exact Hr|].
  apply connected_accs_snoc. now split.
Qed.

Lemma links_pop_top (nfa_stack : frames) s :
  connected_frames (heap s) nfa_stack ->
  links (pop_top nfa_stack) s
    (fun p h' => connected_opt h' (fst p) /\ connected_frames h' (snd p)).
Proof.
  intros Hns. unfold pop_top.
  lstep ltac:(apply links_index_last).
  intros top s1 Hg1 [r ->]. carry Hg1.
  lstep ltac:(apply links_pop).
  intros [x top'] s2 Hg2 Htop. cbn [fst snd] in Htop. subst top. carry Hg2.
  lstep ltac:(apply links_assign_last).
  intros l' s3 Hg3 (r' & y & Heq & ->). carry Hg3.
  apply app_inj_tail in Heq as [<- <-].
  apply links_ret. cbn [fst snd].
  apply connected_frames_snoc in Hns as [Hr Htop].
  apply connected_accs_snoc in Htop as [Htop' Hx].
  split; [exact Hx|]. apply connected_frames_snoc. now split.
Qed.

Lemma links_finalize_nfa_stack (nfa_stack : frames) (curr_nfa : accumulators) s :
  connected_frames (heap s) nfa_stack ->
  connected_accs (heap s) curr_nfa ->
  links (finalize_nfa_stack nfa_stack curr_nfa) s connected_locals.
Proof.
  intros Hns Hcn. unfold finalize_nfa_stack.
  lstep ltac:(apply links_index_last).
  intros top s1 Hg1 [r Hr]. carry Hg1.
  assert (Htop : connected_accs (heap s1) top).
  { subst nfa_stack. now apply connected_frames_snoc in Hns. }
  destruct (1 <? length top) eqn:Elen.
  - assert (Hne : top <> []) by (intros ->; discriminate Elen).
    lstep ltac:(now apply links_NFA_init_other).
    intros wrap s2 Hg2 Hwrap. carry Hg2.
    lstep ltac:(apply links_index_last).
    intros cur s3 Hg3 [rc ->]. carry Hg3.
    apply connected_accs_snoc in Hcn as [Hrc Hcur].
    destruct cur as [self|].
    + lstep ltac:(now apply links_connect).
      intros self' s4 Hg4 Hself'. carry Hg4.
      lstep ltac:(apply links_assign_last).
      intros l' s5 Hg5 (r' & y & Heq & ->). carry Hg5.
      apply app_inj_tail in Heq as [<- <-].
      apply links_ret. split; cbn [fst snd]; [exact Hns|].
      apply connected_accs_snoc. now split.
    + lstep ltac:(apply links_assign_last).
      intros l' s4 Hg4 (r' & y & Heq & ->). carry Hg4.
      apply app_inj_tail in Heq as [<- <-].
      apply links_ret. split; cbn [fst snd]; [exact Hns|].
      apply connected_accs_snoc. now split.
  - destruct (length top =? 1).
    + lstep ltac:(apply links_index_last).
      intros cur s2 Hg2 [rc ->]. carry Hg2.
      apply connected_accs_snoc in Hcn as [Hrc Hcur].
      subst nfa_stack. apply connected_frames_snoc in Hns as [Hr' _].
      destruct cur as [self|].
      * lstep ltac:(apply links_pop).
        intros [x top'] s3 Hg3 E. cbn [fst snd] in E. subst top. carry Hg3.
        apply connected_accs_snoc in Htop as [Htop' Hx].
        lstep ltac:(apply links_assign_last).
        intros ns' s4 Hg4 (r' & y & Heq & ->). carry Hg4.
        apply app_inj_tail in Heq as [<- <-].
        lstep ltac:(now apply links_connect).
        intros self' s5 Hg5 Hself'. carry Hg5.
        lstep ltac:(apply links_assign_last).
        intros cn' s6 Hg6 (r' & y & Heq & ->). carry Hg6.
        apply app_inj_tail in Heq as [<- <-].
        apply links_ret. split; cbn [fst snd].
        -- apply connected_frames_snoc. now split.
        -- apply connected_accs_snoc. now split.
      * lstep ltac:(apply links_pop).
        intros [x top'] s3 Hg3 E. cbn [fst snd] in E. subst top. carry Hg3.
        apply connected_accs_snoc in Htop as [Htop' Hx].
        lstep ltac:(apply links_assign_last).
        intros ns' s4 Hg4 (r' & y & Heq & ->). carry Hg4.
        apply app_inj_tail in Heq as [<- <-].
        lstep ltac:(apply links_assign_last).
        intros cn' s5 Hg5 (r' & y & Heq & ->). carry Hg5.
        apply app_inj_tail in Heq as [<- <-].
        apply links_ret. split; cbn [fst snd].
        -- apply connected_frames_snoc. now split.
        -- apply connected_accs_snoc. now split.
    + apply links_ret. now split.
Qed.

Lemma links_build_char (pattern : string) (i : nat) (char : ascii)
    (nfa_stack : frames) (curr_nfa : accumulators) s :
  connected_frames (heap s) nfa_stack ->
  connected_accs (heap s) curr_nfa ->
  links (build_char pattern i char nfa_stack curr_nfa) s connected_locals.
Proof.
  intros Hns Hcn. unfold build_char.
  destruct (is_unary char).
  { destruct (length nfa_stack =? 0); [apply links_raise|].
    eapply links_bind with
      (Q1 := fun p h' => connected h' (fst p) /\ connected_frames h' (snd p)).
    - destruct (Ascii.eqb char "?"); [|destruct (Ascii.eqb char "*")].
      + lstep ltac:(now apply links_pop_top).
        intros [x ns'] s1 Hg1 [Hx Hns']. cbn [fst snd] in Hx, Hns'.
        lstep ltac:(apply links_NFA_init_other; [discriminate|]).
        { apply Forall_singleton. exact Hx. }
        intros wrap s2 Hg2 Hwrap. carry Hg2.
        lstep ltac:(apply links_bypass).
        intros _ s3 Hg3 _. carry Hg3.
        apply links_ret. now split.
      + lstep ltac:(now apply links_pop_top).
        intros [x ns'] s1 Hg1 [Hx Hns']. cbn [fst snd] in Hx, Hns'.
        lstep ltac:(apply links_NFA_init_other; [discriminate|]).
        { apply Forall_singleton. exact Hx. }
        intros wrap s2 Hg2 Hwrap. carry Hg2.
        lstep ltac:(apply links_bypass).
        intros _ s3 Hg3 _. carry Hg3.
        lstep ltac:(apply links_loop).
        intros _ s4 Hg4 _. carry Hg4.
        apply links_ret. now split.
      + lstep ltac:(now apply links_pop_top).
        intros [x ns'] s1 Hg1 [Hx Hns']. cbn [fst snd] in Hx, Hns'.
        lstep ltac:(now apply links_attr).
        intros wrap s2 Hg2 Hwrap. carry Hg2.
        lstep ltac:(apply links_loop).
        intros _ s3 Hg3 _. carry Hg3.
        apply links_ret. now split.
    - intros [wrap ns'] s1 Hg1 [Hwrap Hns']. cbn [fst snd] in Hwrap, Hns'.
      carry Hg1.
      lstep ltac:(now apply links_append_top).
      intros ns'' s2 Hg2 Hns''. carry Hg2.
      apply links_ret. now split. }
  destruct (Ascii.eqb char "|").
  { lstep ltac:(apply links_index_last).
    intros top s1 Hg1 _. carry Hg1.
    destruct (length top =? 1).
    - lstep ltac:(now apply links_finalize_nfa_stack).
      intros [ns' cn'] s2 Hg2 [Hns' Hcn']. cbn [fst snd] in Hns', Hcn'.
      lstep ltac:(apply links_index_last).
      intros cur s3 Hg3 [rc ->]. carry Hg3.
      apply connected_accs_snoc in Hcn' as [Hrc Hcur].
      lstep ltac:(now apply links_append_top).
      intros ns'' s4 Hg4 Hns''. carry Hg4.
      lstep ltac:(apply links_assign_last).
      intros cn'' s5 Hg5 (r' & y & Heq & ->). carry Hg5.
      apply app_inj_tail in Heq as [<- <-].
      apply links_ret. split; cbn [fst snd]; [exact Hns''|].
      apply connected_accs_snoc. split; [exact Hrc | exact I].
    - apply links_ret. now split. }
  destruct (Ascii.eqb char "(").
  { apply links_ret. split; cbn [fst snd].
    - apply connected_frames_snoc. split; [exact Hns | constructor].
    - apply connected_accs_snoc. split; [exact Hcn | exact I]. }
  destruct (Ascii.eqb char ")").
  { lstep ltac:(now apply links_finalize_nfa_stack).
    intros [ns' cn'] s1 Hg1 [Hns' Hcn']. cbn [fst snd] in Hns', Hcn'.
    lstep ltac:(apply links_pop).
    intros [dropped ns''] s2 Hg2 E. cbn [fst snd] in E. subst ns'. carry Hg2.
    apply connected_frames_snoc in Hns' as [Hns'' _].
    lstep ltac:(apply links_index_last).
    intros top s3 Hg3 _. carry Hg3.
    lstep ltac:(apply links_pop).
    intros [cur cn''] s4 Hg4 E. cbn [fst snd] in E. subst cn'. carry Hg4.
    apply connected_accs_snoc in Hcn' as [Hcn'' Hcur].
    lstep ltac:(now apply links_append_top).
    intros ns''' s5 Hg5 Hns'''. carry Hg5.
    apply links_ret. now split. }
  lstep ltac:(apply links_Char_init).
  intros char_state s1 Hg1 Hcs. carry Hg1.
  assert (Hchar : connected_opt (heap s1)
                    (Some (NFA_init char_state char_state))).
  { repeat split; [exact Hcs | exact Hcs | constructor]. }
  clear Hcs.
  lstep ltac:(apply links_lift with (Q := fun _ _ => True); auto).
  intros prev s2 Hg2 _. carry Hg2.
  destruct (Ascii.eqb prev "|").
  { lstep ltac:(now apply links_append_top).
    intros ns' s3 Hg3 Hns'. carry Hg3.
    apply links_ret. now split. }
  lstep ltac:(apply links_index_last).
  intros top s3 Hg3 [r ->]. carry Hg3.
  destruct top as [|t0 top0].
  { lstep ltac:(now apply links_append_top).
    intros ns' s4 Hg4 Hns'. carry Hg4.
    apply links_ret. now split. }
  apply connected_frames_snoc in Hns as [Hr Htop].
  lstep ltac:(apply links_index_last).
  intros last s4 Hg4 [rt Hrt]. carry Hg4. rewrite Hrt in Htop.
  apply connected_accs_snoc in Htop as [Hrt' Hlast].
  lstep ltac:(now apply links_attr).
  intros self s5 Hg5 Hself. carry Hg5.
  lstep ltac:(now apply links_connect).
  intros self' s6 Hg6 Hself'. carry Hg6.
  lstep ltac:(apply links_assign_last).
  intros top' s7 Hg7 (r' & y & Heq & ->). carry Hg7.
  rewrite Hrt in Heq. apply app_inj_tail in Heq as [<- <-].
  lstep ltac:(apply links_assign_last).
  intros ns' s8 Hg8 (r' & y & Heq & ->). carry Hg8.
  apply app_inj_tail in Heq as [<- <-].
  apply links_ret. split; cbn [fst snd]; [|exact Hcn].
  apply connected_frames_snoc. split; [exact Hr|].
  apply connected_accs_snoc. now split.
Qed.

Lemma links_scan (pattern : string) (rest : list ascii) :
  forall (i : nat) (nfa_stack : frames) (curr_nfa : accumulators) s,
    connected_frames (heap s) nfa_stack ->
    connected_accs (heap s) curr_nfa ->
    links (scan pattern i rest nfa_stack curr_nfa) s connected_locals.
Proof.
  induction rest as [|char rest IH]; intros i nfa_stack curr_nfa s Hns Hcn.
  - apply links_ret. now split.
  - cbn [scan]. lstep ltac:(now apply links_build_char).
    intros [ns' cn'] s1 Hg1 [Hns' Hcn']. now apply IH.
Qed.

Lemma links_build_from_counter (pattern : string) s :
  links (build_from_counter pattern) s (fun nfa h' => connected h' nfa).
Proof.
  unfold build_from_counter.
  lstep ltac:(apply links_scan; repeat constructor).
  intros [ns cn] s1 Hg1 [Hns Hcn]. cbn [fst snd] in Hns, Hcn.
  lstep ltac:(now apply links_finalize_nfa_stack).
  intros [ns' cn'] s2 Hg2 [_ Hcn']. cbn [snd] in Hcn'.
  lstep ltac:(apply links_State_init).
  intros end_ s3 Hg3 Hend. carry Hg3.
  lstep ltac:(apply links_lift with
                (Q := fun x _ => exists rest, cn' = x :: rest)).
  { intros x Hx. destruct cn' as [|y rest]; [discriminate|].
    injection Hx as ->. now exists rest. }
  intros first s4 Hg4 [rest ->]. carry Hg4.
  apply Forall_cons in Hcn' as [Hfirst _].
  lstep ltac:(now apply links_attr).
  intros self s5 Hg5 Hself. carry Hg5.
  apply links_connect; [exact Hself|].
  repeat split; [exact Hend | exact Hend | constructor].
Qed.

(** X8. The automaton that [build_nfa] returns satisfies the invariant of
    the class [NFA]: its end state is reachable from its start state. *)
Theorem end_state_is_reachable_from_start_state :
  forall (c : Z) (pattern : string) (nfa : NFA) (h : list State),
    build c pattern = Ok (nfa, h) ->
    reachable h (start_state nfa) (end_state nfa).
Proof.
  intros c pattern nfa h E.
  unfold build, build_nfa, bind, set_id_count, boot in E. cbn [heap] in E.
  pose proof (links_build_from_counter pattern (mkInterp 1 [])) as H.
  unfold links in H.
  destruct (build_from_counter pattern (mkInterp 1 [])) as [[nfa'|e] s'];
    [|discriminate].
  injection E as -> <-. apply H.
Qed.

Lemma end_state_is_reachable_from_start_state_witness :
  reachable optional_heap 1 3.
Proof.
  exact (end_state_is_reachable_from_start_state 1 "a?" (mkNFA 1 3)
           optional_heap eq_refl).
Defined.
